(** * Flash-sale reservation engine: stock ledger, reservations, expiry

    A shallow embedding of [backend/src/reservations/reservations.service.ts]
    (with the parts of [products.service.ts], the reservation entity and the
    queue processor it uses), and the properties of the reservation
    lifecycle proved over it.

    The tables are finite maps keyed by the row's uuid.  Dates are
    milliseconds since the epoch ([Z]); quantities and stock levels are the
    integers of the [int] columns.  Every service method is a computation
    in a small state-and-exception monad over a [World]: the committed rows,
    the query runner's open transaction, the delayed-job queue and the
    behaviour of the driver (which calls raise). *)

From stdpp Require Import gmap strings pretty list fin_maps.
From Stdlib Require Import ZArith Lia.

Open Scope Z_scope.

(** ** Entities *)

(** [reservation.entity.ts] *)
Inductive ReservationStatus := ACTIVE | COMPLETED | EXPIRED.

#[global] Instance ReservationStatus_eq_dec : EqDecision ReservationStatus.
Proof. solve_decision. Defined.

Record Reservation := mkReservation {
  id : string;
  productId : string;
  quantity : Z;
  status : ReservationStatus;
  createdAt : Z;
  expiresAt : Z
}.

(** The columns of the product row that [seedProducts] fills in; the row is
    stored under its id. *)
Record Product := mkProduct {
  name : string;
  price : Z;
  availableStock : Z;
  totalStock : Z
}.

(** [create-reservation.dto.ts] *)
Record CreateReservationDto := mkDto {
  dto_productId : string;
  dto_quantity : Z
}.

(** The payload and the delay of a job on the [reservations] queue. *)
Record Job := mkJob {
  reservationId : string;
  delay : Z
}.

Definition withStatus (st : ReservationStatus) (r : Reservation) : Reservation :=
  {| id := id r; productId := productId r; quantity := quantity r;
     status := st; createdAt := createdAt r; expiresAt := expiresAt r |}.

Definition withAvailable (n : Z) (p : Product) : Product :=
  {| name := name p; price := price p; availableStock := n;
     totalStock := totalStock p |}.

Definition statusName (st : ReservationStatus) : string :=
  match st with
  | ACTIVE => "ACTIVE"
  | COMPLETED => "COMPLETED"
  | EXPIRED => "EXPIRED"
  end.

(** ** The database *)

Record Store := mkStore {
  products : gmap string Product;
  reservations : gmap string Reservation
}.

(** [save] of a reservation entity: the row with the entity's id is
    written (inserted or replaced). *)
Definition saveReservation (r : Reservation) (s : Store) : Store :=
  {| products := products s;
     reservations := <[id r := r]> (reservations s) |}.

(** [UPDATE products SET availableStock = availableStock + d WHERE id = pid];
    no row is touched when the id matches none. *)
Definition addAvailable (pid : string) (d : Z) (s : Store) : Store :=
  {| products :=
       alter (fun p => withAvailable (availableStock p + d) p) pid (products s);
     reservations := reservations s |}.

(** The [where] clause of the sweep: [status = ACTIVE] and
    [expiresAt < now] ([LessThan]). *)
Definition isExpiredActive (now : Z) (r : Reservation) : bool :=
  bool_decide (status r = ACTIVE) && (expiresAt r <? now).

Definition findExpiredPending (now : Z) (rs : gmap string Reservation)
  : list Reservation :=
  filter (fun r => isExpiredActive now r = true) (snd <$> map_to_list rs).

(** ** Exceptions *)

Inductive Exception :=
| BadRequestException (message : string)
| NotFoundException (message : string)
| InternalServerErrorException (message : string)
| DriverError               (* raised below the service: a failed call of the
                               driver or the queue, or the query runner's
                               TransactionNotStartedError *)
| TypeError.                (* a property read on [null] *)

(** The error names of the specification, as the exceptions the service
    raises for them. *)
Definition InvalidQuantity : Exception :=
  BadRequestException "Quantity must be at least 1".
Definition ProductNotFound : Exception :=
  NotFoundException "Product not found".
Definition InsufficientStock (available : Z) : Exception :=
  BadRequestException
    ("Insufficient stock. Only " +:+ pretty available +:+ " available").
Definition GenericFailure : Exception :=
  InternalServerErrorException "Failed to create reservation. Please try again.".
Definition ReservationNotFound : Exception :=
  NotFoundException "Reservation not found".
Definition AlreadyResolved (st : ReservationStatus) : Exception :=
  BadRequestException
    ("Cannot complete reservation. Current status: " +:+ statusName st).
Definition Expired : Exception :=
  BadRequestException "Reservation has expired. Stock has been restored.".

(** ** Clocks *)

(** The clocks of the environment, in milliseconds.  [localOffset t] is the
    offset of local time from UTC in force at the instant [t]
    ([LocalTZA(t, true)]); [localOffsetOfLocal t] is the offset by which
    the local time value [t] is taken back to UTC ([LocalTZA(t, false)]);
    the two differ around a change of offset.  [databaseNow now] is what
    the database's clock reads when it inserts the row of a call whose own
    clock read [now]. *)
Record Clock := mkClock {
  localOffset : Z -> Z;
  localOffsetOfLocal : Z -> Z;
  databaseNow : Z -> Z
}.

Definition LocalTime (c : Clock) (t : Z) : Z := t + localOffset c t.

Definition UTC (c : Clock) (t : Z) : Z := t - localOffsetOfLocal c t.

(** [Date.prototype.getMinutes]: the minute of the local time. *)
Definition getMinutes (c : Clock) (t : Z) : Z :=
  (LocalTime c t / 60000) mod 60.

(** [Date.prototype.setMinutes(min)]: the day, the hour, the second and the
    millisecond of the local time are kept, the minute is replaced (a
    minute beyond 59 carries over), and the result is taken back to UTC. *)
Definition setMinutes (c : Clock) (t min : Z) : Z :=
  let l := LocalTime c t in
  UTC c ((l / 86400000) * 86400000
         + ((l / 3600000) mod 24) * 3600000
         + min * 60000
         + ((l / 1000) mod 60) * 1000
         + l mod 1000).

(** ** The monad of service methods *)

(** [store] holds the committed rows, [txn] the rows as the query runner's
    open transaction sees them, [jobs] the delayed jobs.  [faults] lists,
    for the driver and queue calls to come, whether each one raises; when
    the list is exhausted no further call raises.  [clock] holds the
    clocks of the environment. *)
Record World := mkWorld {
  store : Store;
  txn : option Store;
  jobs : list Job;
  faults : list bool;
  clock : Clock
}.

Inductive Outcome (A : Type) :=
| Return (a : A)
| Throw (e : Exception).
Arguments Return {A} a.
Arguments Throw {A} e.

Definition M (A : Type) : Type := World -> Outcome A * World.

Definition ret {A} (a : A) : M A := fun w => (Return a, w).

Definition throw {A} (e : Exception) : M A := fun w => (Throw e, w).

Definition bind {A B} (m : M A) (k : A -> M B) : M B :=
  fun w =>
    match m w with
    | (Return a, w') => k a w'
    | (Throw e, w') => (Throw e, w')
    end.

Notation "'let*' x ':=' m 'in' k" := (bind m (fun x => k))
  (at level 10, x name, m at level 100, k at level 200, only parsing).
Notation "m '>>' k" := (bind m (fun _ => k))
  (at level 90, right associativity, only parsing).

(** [try { body } catch (error) { handler error }] *)
Definition tryCatch {A} (body : M A) (handler : Exception -> M A) : M A :=
  fun w =>
    match body w with
    | (Return a, w') => (Return a, w')
    | (Throw e, w') => handler e w'
    end.

(** [try { body } finally { cleanup }]: the cleanup runs on both exits, and
    an exception of the cleanup replaces the outcome. *)
Definition tryFinally {A} (body : M A) (cleanup : M unit) : M A :=
  fun w =>
    match body w with
    | (o, w') =>
        match cleanup w' with
        | (Return _, w'') => (o, w'')
        | (Throw e, w'') => (Throw e, w'')
        end
    end.

Definition withStore (s : Store) (w : World) : World :=
  {| store := s; txn := txn w; jobs := jobs w; faults := faults w;
     clock := clock w |}.
Definition withTxn (t : option Store) (w : World) : World :=
  {| store := store w; txn := t; jobs := jobs w; faults := faults w;
     clock := clock w |}.
Definition withJobs (js : list Job) (w : World) : World :=
  {| store := store w; txn := txn w; jobs := js; faults := faults w;
     clock := clock w |}.
Definition withFaults (fs : list bool) (w : World) : World :=
  {| store := store w; txn := txn w; jobs := jobs w; faults := fs;
     clock := clock w |}.

(** One call into the driver (or the queue): it raises when the next fault
    flag says so. *)
Definition driverCall : M unit :=
  fun w =>
    match faults w with
    | [] => (Return tt, w)
    | false :: fs => (Return tt, withFaults fs w)
    | true :: fs => (Throw DriverError, withFaults fs w)
    end.

(** *** The query runner *)

Definition createQueryRunner : M unit :=
  fun w => (Return tt, withTxn None w).

Definition connect : M unit := driverCall.

Definition startTransaction : M unit :=
  driverCall >> fun w => (Return tt, withTxn (Some (store w)) w).

(** The rows a statement of the query runner works on: those of its open
    transaction, or the committed ones when it has none. *)
Definition runnerView (w : World) : Store :=
  match txn w with
  | Some t => t
  | None => store w
  end.

Definition runnerWrite (f : Store -> Store) (w : World) : World :=
  match txn w with
  | Some t => withTxn (Some (f t)) w
  | None => withStore (f (store w)) w
  end.

(** [SELECT ... FROM products WHERE id = :id FOR UPDATE] *)
Definition selectProductForUpdate (pid : string) : M (option Product) :=
  driverCall >> fun w => (Return (products (runnerView w) !! pid), w).

(** [UPDATE products SET availableStock = availableStock - :quantity] *)
Definition deductStock (pid : string) (q : Z) : M unit :=
  driverCall >> fun w => (Return tt, runnerWrite (addAvailable pid (- q)) w).

Definition runnerSave (r : Reservation) : M Reservation :=
  driverCall >> fun w => (Return r, runnerWrite (saveReservation r) w).

(** The query runner refuses to commit or roll back when it has no open
    transaction: it raises TransactionNotStartedError before any statement
    is sent. *)
Definition commitTransaction : M unit :=
  fun w =>
    match txn w with
    | None => (Throw DriverError, w)
    | Some t =>
        (driverCall >> fun w' => (Return tt, withTxn None (withStore t w'))) w
    end.

(** The uncommitted rows are dropped. *)
Definition rollbackTransaction : M unit :=
  fun w =>
    match txn w with
    | None => (Throw DriverError, w)
    | Some _ => (driverCall >> fun w => (Return tt, withTxn None w)) w
    end.

(** Hands the connection back; no statement is sent. *)
Definition release : M unit := ret tt.

(** *** The repositories (each statement commits on its own) *)

Definition findOne (rid : string) : M (option Reservation) :=
  driverCall >> fun w => (Return (reservations (store w) !! rid), w).

Definition save (r : Reservation) : M Reservation :=
  driverCall >> fun w => (Return r, withStore (saveReservation r (store w)) w).

Definition find (now : Z) : M (list Reservation) :=
  driverCall >> fun w =>
    (Return (findExpiredPending now (reservations (store w))), w).

(** [ProductsService.incrementStock] *)
Definition incrementStock (pid : string) (q : Z) : M unit :=
  driverCall >> fun w => (Return tt, withStore (addAvailable pid q (store w)) w).

(** [reservationQueue.add] *)
Definition queueAdd (j : Job) : M unit :=
  driverCall >> fun w => (Return tt, withJobs (jobs w ++ [j]) w).

(** ** ReservationsService *)

(** The clocks in force during a call. *)
Definition currentClock : M Clock := fun w => (Return (clock w), w).

(** [create]: [now] is the clock reading of [new Date()], [uuid] the
    primary key the insert generates for the new row; the insert also
    fills [createdAt] from the database's clock. *)
Definition create (dto : CreateReservationDto) (now : Z) (uuid : string)
  : M Reservation :=
  let productId := dto_productId dto in
  let quantity := dto_quantity dto in
  if quantity <? 1 then throw InvalidQuantity
  else
    createQueryRunner >>
    connect >>
    startTransaction >>
    tryFinally
      (tryCatch
         (let* product := selectProductForUpdate productId in
          match product with
          | None =>
              rollbackTransaction >>
              throw ProductNotFound
          | Some product =>
              if availableStock product <? quantity then
                rollbackTransaction >>
                throw (InsufficientStock (availableStock product))
              else
                deductStock productId quantity >>
                let* zone := currentClock in
                let expiresAt := setMinutes zone now (getMinutes zone now + 2) in
                let reservation :=
                  {| id := uuid; productId := productId; quantity := quantity;
                     status := ACTIVE; createdAt := databaseNow zone now;
                     expiresAt := expiresAt |} in
                let* savedReservation := runnerSave reservation in
                commitTransaction >>
                tryCatch
                  (queueAdd {| reservationId := id savedReservation;
                               delay := 2 * 60 * 1000 |})
                  (fun jobError => ret tt) >>
                ret savedReservation
          end)
         (fun error =>
            rollbackTransaction >>
            match error with
            | BadRequestException _ | NotFoundException _ => throw error
            | _ => throw GenericFailure
            end))
      release.

(** [complete].  The method awaits a second read of the row when the
    reservation is overdue; [meanwhile] is what other tasks (the queue
    job, the cron sweep) have written by the time that read is answered. *)
Definition completeAmid (meanwhile : World -> World) (rid : string) (now : Z)
  : M Reservation :=
  let* reservation := findOne rid in
  match reservation with
  | None => throw ReservationNotFound
  | Some reservation =>
      if negb (bool_decide (status reservation = ACTIVE)) then
        throw (AlreadyResolved (status reservation))
      else if expiresAt reservation <? now then
        (fun w => (Return tt, meanwhile w)) >>
        let* currentReservation := findOne rid in
        match currentReservation with
        | None => throw TypeError
        | Some currentReservation =>
            (if bool_decide (status currentReservation = ACTIVE) then
               save (withStatus EXPIRED currentReservation) >>
               incrementStock (productId currentReservation)
                              (quantity currentReservation)
             else ret tt) >>
            throw Expired
        end
      else
        let* completed := save (withStatus COMPLETED reservation) in
        ret completed
  end.

Definition complete (rid : string) (now : Z) : M Reservation :=
  completeAmid (fun w => w) rid now.

(** [expireReservation] *)
Definition expireReservation (rid : string) : M unit :=
  tryCatch
    (let* reservation := findOne rid in
     match reservation with
     | None => ret tt
     | Some reservation =>
         if negb (bool_decide (status reservation = ACTIVE)) then ret tt
         else
           save (withStatus EXPIRED reservation) >>
           incrementStock (productId reservation) (quantity reservation) >>
           ret tt
     end)
    (fun error => throw error).

Fixpoint forEach {A} (l : list A) (body : A -> M unit) : M unit :=
  match l with
  | [] => ret tt
  | x :: rest => body x >> forEach rest body
  end.

(** [handleExpiredReservations], the cron sweep. *)
Definition handleExpiredReservations (now : Z) : M unit :=
  tryCatch
    (let* expiredReservations := find now in
     if (0 <? Z.of_nat (length expiredReservations)) then
       forEach expiredReservations (fun reservation =>
         expireReservation (id reservation))
     else ret tt)
    (fun error => ret tt).

(** [ReservationsProcessor.handleExpiration] *)
Definition handleExpiration (job : Job) : M unit :=
  expireReservation (reservationId job).

(** ** The ledger invariant and the reachable worlds *)

(** What a reservation holds of product [pid]: its quantity while it is
    [ACTIVE], nothing once it is resolved. *)
Definition held (pid : string) (r : Reservation) : Z :=
  if bool_decide (status r = ACTIVE ∧ productId r = pid) then quantity r else 0.

Definition pendingQuantity (pid : string) (rs : gmap string Reservation) : Z :=
  map_fold (fun _ r acc => held pid r + acc) 0 rs.

Definition ledgerInvariant (s : Store) : Prop :=
  ∀ pid p, products s !! pid = Some p →
    0 ≤ availableStock p ∧
    pendingQuantity pid (reservations s) + availableStock p ≤ totalStock p.

(** Every row is stored under its own id and holds at least one unit. *)
Definition rowsWellFormed (s : Store) : Prop :=
  map_Forall (fun k r => id r = k ∧ 1 ≤ quantity r) (reservations s).

(** A freshly seeded catalogue: full stock and no reservation yet. *)
Definition initialStore (s : Store) : Prop :=
  reservations s = ∅ ∧
  ∀ pid p, products s !! pid = Some p →
    availableStock p = totalStock p ∧ 0 ≤ totalStock p.

Inductive Call :=
| Reserve (dto : CreateReservationDto) (now : Z) (uuid : string)
| Confirm (rid : string) (now : Z)
| ResolveExpiry (rid : string).

Definition perform (c : Call) (w : World) : World :=
  match c with
  | Reserve dto now uuid => snd (create dto now uuid w)
  | Confirm rid now => snd (complete rid now w)
  | ResolveExpiry rid => snd (expireReservation rid w)
  end.

(** The insert generates a primary key that no row has yet. *)
Definition admissible (c : Call) (w : World) : Prop :=
  match c with
  | Reserve _ _ uuid => reservations (store w) !! uuid = None
  | _ => True
  end.

(** The worlds the service can be in: any run of calls from a seeded
    store, each call meeting any behaviour of the driver. *)
Inductive reachable : World -> Prop :=
| reachable_init w : initialStore (store w) → reachable w
| reachable_call w c fs :
    reachable w → admissible c w → reachable (perform c (withFaults fs w)).

(** What the invariant proof carries along. *)
Definition consistent (s : Store) : Prop :=
  rowsWellFormed s ∧ ledgerInvariant s.

(** The row [create] inserts under the clocks [c]: the entity it builds,
    with the generated id and creation date. *)
Definition newReservation (c : Clock) (dto : CreateReservationDto) (now : Z)
    (uuid : string) : Reservation :=
  {| id := uuid; productId := dto_productId dto; quantity := dto_quantity dto;
     status := ACTIVE; createdAt := databaseNow c now;
     expiresAt := setMinutes c now (getMinutes c now + 2) |}.

(** The queue job (or the cron sweep) expiring reservation [rid] while
    another call is waiting. *)
Definition backgroundExpiry (rid : string) (w : World) : World :=
  snd (expireReservation rid w).

(** ** A seeded catalogue to run the service on *)

Module Demo.
Definition phone : Product :=
  {| name := "iPhone 15 Pro Max"; price := 1199;
     availableStock := 10; totalStock := 10 |}.

Definition seeded : Store :=
  {| products := {["p1" := phone]}; reservations := ∅ |}.

(** A process and a database on UTC, with clocks that agree. *)
Definition utc : Clock :=
  {| localOffset := fun _ => 0; localOffsetOfLocal := fun _ => 0;
     databaseNow := fun now => now |}.

(** A zone four hours behind UTC until 06:00 UTC of day 0 and five hours
    behind from then on: at 02:00 local time the clocks go back to 01:00,
    and a local time that occurs twice is read as its first occurrence. *)
Definition fallBack : Clock :=
  {| localOffset := fun t =>
       if t <? 21600000 then -14400000 else -18000000;
     localOffsetOfLocal := fun t =>
       if t <? 7200000 then -14400000 else -18000000;
     databaseNow := fun now => now |}.

Definition w0 : World :=
  {| store := seeded; txn := None; jobs := []; faults := []; clock := utc |}.

Definition order : CreateReservationDto :=
  {| dto_productId := "p1"; dto_quantity := 3 |}.

(** Three units reserved at time 1000 under id [r1]; the hold ends at
    121000. *)
Definition r1 : Reservation := newReservation utc order 1000 "r1".
Definition w1 : World := perform (Reserve order 1000 "r1") w0.

(** The same reservation once confirmed. *)
Definition w2 : World := perform (Confirm "r1" 2000) w1.
End Demo.

(** ** The rest of the services *)

(** [ProductsService.decrementStock] *)
Definition decrementStock (pid : string) (q : Z) : M unit :=
  driverCall >> fun w =>
    (Return tt, withStore (addAvailable pid (- q) (store w)) w).

(** The catalogue of [seedProducts]. *)
Definition sampleProducts : list Product :=
  [ {| name := "iPhone 15 Pro Max"; price := 1199;
       availableStock := 10; totalStock := 10 |};
    {| name := "Samsung Galaxy S24 Ultra"; price := 1099;
       availableStock := 15; totalStock := 15 |};
    {| name := "MacBook Air M3"; price := 1299;
       availableStock := 8; totalStock := 8 |};
    {| name := "Sony WH-1000XM5 Headphones"; price := 399;
       availableStock := 20; totalStock := 20 |};
    {| name := "iPad Pro 12.9" +:+ String (Ascii.ascii_of_nat 34) EmptyString;
       price := 1099; availableStock := 12; totalStock := 12 |};
    {| name := "AirPods Pro (2nd Gen)"; price := 249;
       availableStock := 25; totalStock := 25 |} ].

(** [productsRepository.count()] *)
Definition countProducts : M Z :=
  driverCall >> fun w => (Return (Z.of_nat (size (products (store w)))), w).

Definition insertProducts (rows : list (string * Product))
    (ps : gmap string Product) : gmap string Product :=
  foldl (fun m row => <[fst row := snd row]> m) ps rows.

(** [productsRepository.save(products)]: one statement for the batch; each
    row is written under the id the insert generates for it. *)
Definition saveProducts (rows : list (string * Product)) : M unit :=
  driverCall >> fun w =>
    (Return tt,
     withStore {| products := insertProducts rows (products (store w));
                  reservations := reservations (store w) |} w).

(** [ProductsService.seedProducts] (run by [onModuleInit]); [uuids] are the
    generated primary keys, in the order of the batch. *)
Definition seedProducts (uuids : list string) : M unit :=
  let* count := countProducts in
  if count =? 0 then saveProducts (zip uuids sampleProducts)
  else ret tt.

(** [reservationsRepository.countBy({ status })] *)
Definition tally (st : ReservationStatus) (rs : gmap string Reservation) : Z :=
  map_fold (fun _ r acc => (if bool_decide (status r = st) then 1 else 0) + acc)
    0 rs.

Definition countBy (st : ReservationStatus) : M Z :=
  driverCall >> fun w => (Return (tally st (reservations (store w))), w).

Record Statistics := mkStatistics {
  active : Z;
  completed : Z;
  expired : Z
}.

(** [ReservationsService.getStatistics] *)
Definition getStatistics : M Statistics :=
  let* active := countBy ACTIVE in
  let* completed := countBy COMPLETED in
  let* expired := countBy EXPIRED in
  ret {| active := active; completed := completed; expired := expired |}.

(** The statistics of a reservations table. *)
Definition statisticsOf (rs : gmap string Reservation) : Statistics :=
  {| active := tally ACTIVE rs; completed := tally COMPLETED rs;
     expired := tally EXPIRED rs |}.

(** Whether a row counts for status [st]. *)
Definition counts (st : ReservationStatus) (r : Reservation) : Z :=
  if bool_decide (status r = st) then 1 else 0.

(** What [expireReservation] writes when no driver call raises. *)
Definition expireStore (rid : string) (s : Store) : Store :=
  match reservations s !! rid with
  | Some r =>
      if bool_decide (status r = ACTIVE) then
        addAvailable (productId r) (quantity r)
          (saveReservation (withStatus EXPIRED r) s)
      else s
  | None => s
  end.

(** The rows after the sweep has gone through the list [l], no driver call
    raising. *)
Definition expireAll (l : list Reservation) (s : Store) : Store :=
  foldl (fun s r => expireStore (id r) s) s l.

(** What expiry does to one row. *)
Definition expireRow (r : Reservation) : Reservation :=
  if bool_decide (status r = ACTIVE) then withStatus EXPIRED r else r.

(** Every product keeps its total stock, and the units held by [ACTIVE]
    reservations plus the available ones add up to the same number. *)
Definition sameCommitment (s s' : Store) : Prop :=
  ∀ pid p, products s !! pid = Some p →
    ∃ p', products s' !! pid = Some p' ∧ totalStock p' = totalStock p ∧
          pendingQuantity pid (reservations s') + availableStock p'
          = pendingQuantity pid (reservations s) + availableStock p.

(** ** The client: [frontend/lib/api.ts] and the components *)

(** Dates reach the client as ISO strings; [new Date(..).getTime()] gives
    back the milliseconds of the entity. *)

(** [isReservationExpired]: [now >= expiresAt]. *)
Definition isReservationExpired (now : Z) (r : Reservation) : bool :=
  expiresAt r <=? now.

(** [getRemainingTime], and [calculateTimeLeft] of the reservation timer:
    [Math.max(0, Math.floor((expiresAt - now) / 1000))]. *)
Definition getRemainingTime (now : Z) (r : Reservation) : Z :=
  Z.max 0 ((expiresAt r - now) / 1000).

Definition calculateTimeLeft (now : Z) (r : Reservation) : Z :=
  Z.max 0 ((expiresAt r - now) / 1000).

(** [getStockStatus] *)
Definition getStockStatus (p : Product) : string :=
  if availableStock p =? 0 then "out-of-stock"
  else if availableStock p <=? 5 then "low-stock"
  else "in-stock".

(** The product filter of the product list: ['all' | 'in-stock' |
    'low-stock']. *)
Inductive StockFilter := ShowAll | ShowInStock | ShowLowStock.

Definition passesFilter (f : StockFilter) (p : Product) : bool :=
  match f with
  | ShowInStock => 0 <? availableStock p
  | ShowLowStock => (0 <? availableStock p) && (availableStock p <=? 5)
  | ShowAll => true
  end.

Definition filteredProducts (f : StockFilter) (ps : list Product) : list Product :=
  filter (fun p => passesFilter f p = true) ps.

(** *** Requests *)

Inductive ClientError :=
| ApiRequestError (message : string) (statusCode : Z) (error : string)
| FetchError (message : string).      (* any other rejection of [fetch] *)

(** How the network answers one [fetch]: with a response of some status,
    not before the abort timer fires, or with a rejection. *)
Inductive Answer :=
| Responds (status : Z)
| TimesOut
| Fails (message : string).

(** [answers k] is the answer to the [k]-th request, [requests] the number
    of requests sent, [slept] the delays waited, oldest first. *)
Record Network := mkNetwork {
  answers : nat -> Answer;
  requests : nat;
  slept : list Z
}.

Inductive Settled (A : Type) :=
| Resolved (a : A)
| Rejected (e : ClientError).
Arguments Resolved {A} a.
Arguments Rejected {A} e.

Definition Client (A : Type) : Type := Network -> Settled A * Network.

Definition sleep (ms : Z) (n : Network) : Network :=
  {| answers := answers n; requests := requests n; slept := slept n ++ [ms] |}.

(** [fetchWithTimeout]: resolves with the response's status. *)
Definition fetchWithTimeout : Client Z :=
  fun n =>
    let n' := {| answers := answers n; requests := S (requests n);
                 slept := slept n |} in
    match answers n (requests n) with
    | Responds status => (Resolved status, n')
    | TimesOut =>
        (Rejected (ApiRequestError "Request timeout" 408 "Request Timeout"), n')
    | Fails message => (Rejected (FetchError message), n')
    end.

Definition RetriesExhausted : ClientError :=
  ApiRequestError "Request failed after retries" 500 "Internal Server Error".

(** The [for] loop of [fetchWithRetry] from index [i], with [remaining]
    iterations to go. *)
Fixpoint retryLoop (remaining : nat) (i maxRetries retryDelay : Z)
    (lastError : option ClientError) : Client Z :=
  match remaining with
  | O => fun n => (Rejected (default RetriesExhausted lastError), n)
  | S remaining' =>
      fun n =>
        match fetchWithTimeout n with
        | (Resolved status, n1) =>
            if (400 <=? status) && (status <? 500) then (Resolved status, n1)
            else if (500 <=? status) && (i <? maxRetries - 1) then
              retryLoop remaining' (i + 1) maxRetries retryDelay lastError
                (sleep (retryDelay * (i + 1)) n1)
            else (Resolved status, n1)
        | (Rejected e, n1) =>
            retryLoop remaining' (i + 1) maxRetries retryDelay (Some e)
              (if i <? maxRetries - 1 then sleep (retryDelay * (i + 1)) n1
               else n1)
        end
  end.

(** [fetchWithRetry] *)
Definition fetchWithRetry (maxRetries retryDelay : Z) : Client Z :=
  retryLoop (Z.to_nat maxRetries) 0 maxRetries retryDelay None.

(** The rejection [fetchWithTimeout] turns an answer into, if any. *)
Definition errorOf (a : Answer) : option ClientError :=
  match a with
  | Responds _ => None
  | TimesOut => Some (ApiRequestError "Request timeout" 408 "Request Timeout")
  | Fails message => Some (FetchError message)
  end.

(** The delays before the retries that follow attempt [i]: [retryDelay]
    times the number of the attempt just failed. *)
Definition backoff (retryDelay i : Z) (retries : nat) : list Z :=
  (fun j => retryDelay * (i + Z.of_nat j)) <$> seq 1 retries.

(** Whether an answer makes the loop try again (when attempts remain). *)
Definition retriable (a : Answer) : Prop :=
  match a with
  | Responds status => 500 ≤ status
  | _ => True
  end.

(** What a run of the loop does: [made] requests, the last one deciding
    the outcome, each earlier one retried after its delay. *)
Definition retrySpec (remaining : nat) (i retryDelay : Z)
    (lastError : option ClientError) (n : Network)
    (res : Settled Z * Network) : Prop :=
  let n' := snd res in
  answers n' = answers n ∧
  ∃ made : nat,
    requests n' = (requests n + made)%nat ∧
    (made ≤ remaining)%nat ∧
    (remaining ≠ 0%nat → (1 ≤ made)%nat) ∧
    slept n' = slept n ++ backoff retryDelay i (made - 1) ∧
    (∀ k, (S k < made)%nat → retriable (answers n (requests n + k)%nat)) ∧
    match fst res with
    | Resolved status =>
        (1 ≤ made)%nat ∧
        answers n (requests n + made - 1)%nat = Responds status ∧
        (500 ≤ status → made = remaining)
    | Rejected e =>
        made = remaining ∧
        (remaining = 0%nat → e = default RetriesExhausted lastError) ∧
        (remaining ≠ 0%nat →
           errorOf (answers n (requests n + made - 1)%nat) = Some e)
    end.

(** The checks of [handleReserve] in the product card, made on the
    product as last fetched, before any request is sent: the message
    shown, if any. *)
Definition handleReserveError (quantity : Z) (product : Product)
  : option string :=
  if availableStock product <? quantity then
    Some ("Only " +:+ pretty (availableStock product) +:+ " items available!")
  else if quantity <? 1 then Some "Quantity must be at least 1"
  else None.

(** ** Networks to run the client on *)

Module DemoClient.
(** The first request fails, the second is answered 503, the later ones 200. *)
Definition flaky : Network :=
  {| answers := fun k =>
       match k with
       | O => Fails "Failed to fetch"
       | S O => Responds 503
       | _ => Responds 200
       end;
     requests := 0; slept := [] |}.

(** No request is answered before its abort timer fires. *)
Definition silent : Network :=
  {| answers := fun _ => TimesOut; requests := 0; slept := [] |}.
End DemoClient.

(** ** Proof automation *)

(** Case analysis on whether the next driver call raises. *)
Ltac split_faults :=
  repeat match goal with
  | |- context [match ?fs with [] => _ | _ :: _ => _ end] =>
      is_var fs; destruct fs as [|[|] fs]; cbn
  end.

(** Runs a method symbolically: splits on the driver's behaviour, on the
    rows looked up and on the guards of the method. *)
Ltac run_method :=
  cbn;
  repeat (first
    [ progress split_faults
    | match goal with
      | |- context [match ?m !! ?k with Some _ => _ | None => _ end] =>
          let E := fresh "Hrow" in destruct (m !! k) eqn:E; cbn
      | |- context [bool_decide ?P] => case_bool_decide; cbn
      | |- context [?a <? ?b] =>
          let E := fresh "Hcmp" in destruct (Z.ltb_spec a b) as [E|E]; cbn
      end ]).

Ltac unfold_service :=
  cbv [create complete completeAmid expireReservation
       createQueryRunner connect startTransaction tryFinally tryCatch bind
       selectProductForUpdate deductStock runnerSave commitTransaction
       rollbackTransaction release queueAdd findOne save incrementStock
       currentClock driverCall ret throw].

(** ** Stepping the driver calls when none of them raises *)

Section NoFaults.
Variable w : World.
Hypothesis quiet : faults w = [].

Lemma driverCall_quiet : driverCall w = (Return tt, w).
Proof. unfold driverCall. by rewrite quiet. Qed.

Lemma findOne_quiet rid :
  findOne rid w = (Return (reservations (store w) !! rid), w).
Proof. unfold findOne, bind. by rewrite driverCall_quiet. Qed.

Lemma save_quiet r :
  save r w = (Return r, withStore (saveReservation r (store w)) w).
Proof. unfold save, bind. by rewrite driverCall_quiet. Qed.

Lemma incrementStock_quiet pid q :
  incrementStock pid q w
  = (Return tt, withStore (addAvailable pid q (store w)) w).
Proof. unfold incrementStock, bind. by rewrite driverCall_quiet. Qed.

Lemma find_quiet now :
  find now w = (Return (findExpiredPending now (reservations (store w))), w).
Proof. unfold find, bind. by rewrite driverCall_quiet. Qed.
End NoFaults.

(** [expireReservation] on an [ACTIVE] row, no call raising. *)
Lemma expireReservation_active r w :
  faults w = [] →
  reservations (store w) !! id r = Some r →
  status r = ACTIVE →
  expireReservation (id r) w
  = (Return tt,
     withStore (addAvailable (productId r) (quantity r)
                  (saveReservation (withStatus EXPIRED r) (store w))) w).
Proof.
  intros Hq Hr Hst. unfold expireReservation, tryCatch, bind.
  rewrite (findOne_quiet w Hq), Hr, Hst. simpl.
  rewrite (save_quiet w Hq).
  by rewrite incrementStock_quiet.
Qed.

(** [expireReservation] on a row that is no longer [ACTIVE]. *)
Lemma expireReservation_resolved rid r w :
  faults w = [] →
  reservations (store w) !! rid = Some r →
  status r ≠ ACTIVE →
  expireReservation rid w = (Return tt, w).
Proof.
  intros Hq Hr Hst. unfold expireReservation, tryCatch, bind.
  rewrite (findOne_quiet w Hq), Hr.
  by rewrite bool_decide_false.
Qed.

(** ** The claims *)

(** C7.  A [create] with a quantity below 1 raises the bad-request
    exception for an invalid quantity at once: the world it returns is the
    world it was given, so no query runner was made, no transaction
    opened, no row and no job written. *)
Theorem create_rejects_quantity_below_one dto now uuid w :
  dto_quantity dto < 1 →
  create dto now uuid w = (Throw InvalidQuantity, w).
Proof.
  intros Hq. unfold create.
  destruct (dto_quantity dto <? 1) eqn:E; [done | lia].
Qed.

(** C10.  [expireReservation] with an id that matches no reservation
    returns normally (no exception, no not-found) and leaves the whole
    world, so every reservation and every product row, as it was. *)
Theorem expireReservation_unknown_id rid w :
  faults w = [] →
  reservations (store w) !! rid = None →
  expireReservation rid w = (Return tt, w).
Proof.
  intros Hq Hnone. unfold expireReservation, tryCatch, bind.
  by rewrite (findOne_quiet w Hq), Hnone.
Qed.

(** C9.  Confirming an [ACTIVE] reservation at the very instant of its
    deadline is not treated as an expiry: [complete] returns the
    reservation with status [COMPLETED] and its other columns as they
    were, stores that row under the reservation's id, touches no other
    reservation, and leaves the products table (so every available stock)
    as it was. *)
Theorem complete_at_deadline_confirms r now w :
  faults w = [] →
  reservations (store w) !! id r = Some r →
  status r = ACTIVE →
  now = expiresAt r →
  let w' := snd (complete (id r) now w) in
  ∃ completed,
    fst (complete (id r) now w) = Return completed
    ∧ status completed = COMPLETED
    ∧ id completed = id r
    ∧ productId completed = productId r
    ∧ quantity completed = quantity r
    ∧ createdAt completed = createdAt r
    ∧ expiresAt completed = expiresAt r
    ∧ reservations (store w') !! id r = Some completed
    ∧ (∀ k, k ≠ id r →
         reservations (store w') !! k = reservations (store w) !! k)
    ∧ products (store w') = products (store w).
Proof.
  intros Hq Hr Hst ->. unfold complete, completeAmid, bind.
  rewrite (findOne_quiet w Hq), Hr, Hst. simpl.
  rewrite Z.ltb_irrefl, (save_quiet w Hq). simpl.
  exists (withStatus COMPLETED r).
  split; [done|]. split; [done|]. split; [done|]. split; [done|].
  split; [done|]. split; [done|]. split; [done|].
  split; [apply lookup_insert_eq|]. split; [|done].
  intros k Hk. by rewrite lookup_insert_ne.
Qed.

(** C2.  Two [expireReservation] calls in a row on a stored reservation.
    When the reservation is [ACTIVE], the first call marks it [EXPIRED]
    and adds its quantity to the product's available stock; whatever its
    status was, the second call changes nothing at all.  So the stock is
    credited by the quantity once for an [ACTIVE] reservation (and not at
    all for one that was resolved before). *)
Theorem expireReservation_twice_credits_once r w :
  faults w = [] →
  reservations (store w) !! id r = Some r →
  let w1 := snd (expireReservation (id r) w) in
  let w2 := snd (expireReservation (id r) w1) in
  fst (expireReservation (id r) w) = Return tt
  ∧ expireReservation (id r) w1 = (Return tt, w1)
  ∧ w2 = w1
  ∧ (status r ≠ ACTIVE → w1 = w)
  ∧ (status r = ACTIVE →
       reservations (store w1) !! id r = Some (withStatus EXPIRED r)
       ∧ products (store w1)
         = alter (fun p => withAvailable (availableStock p + quantity r) p)
             (productId r) (products (store w))
       ∧ ∀ p, products (store w) !! productId r = Some p →
              availableStock <$> products (store w2) !! productId r
              = Some (availableStock p + quantity r)).
Proof.
  intros Hq Hr. cbv zeta.
  destruct (decide (status r = ACTIVE)) as [Hst|Hst].
  - rewrite (expireReservation_active r w Hq Hr Hst). cbn [fst snd].
    set (w1 := withStore _ w).
    assert (Hr1 : reservations (store w1) !! id r = Some (withStatus EXPIRED r))
      by apply lookup_insert_eq.
    assert (Hsecond : expireReservation (id r) w1 = (Return tt, w1))
      by (by apply (expireReservation_resolved _ (withStatus EXPIRED r))).
    rewrite Hsecond. cbn [snd].
    split; [done|split; [done|split; [done|split; [done|]]]].
    intros _. split; [done|split; [done|]].
    intros p Hp. subst w1. simpl. by rewrite lookup_alter_eq, Hp.
  - rewrite (expireReservation_resolved (id r) r w Hq Hr Hst). cbn [fst snd].
    rewrite (expireReservation_resolved (id r) r w Hq Hr Hst). cbn [snd].
    split; [done|split; [done|split; [done|split; [done|]]]].
    intros Hact. by destruct Hst.
Qed.

(** ** What a call can do to the committed rows, whatever the driver does *)

Lemma expireReservation_store rid w :
  let s := store w in
  let s' := store (snd (expireReservation rid w)) in
  s' = s ∨
  ∃ r, reservations s !! rid = Some r ∧ status r = ACTIVE ∧
       (s' = saveReservation (withStatus EXPIRED r) s ∨
        s' = addAvailable (productId r) (quantity r)
               (saveReservation (withStatus EXPIRED r) s)).
Proof. destruct w as [s t js fs ck]. unfold_service. run_method; eauto 8. Qed.

Lemma complete_store rid now w :
  let s := store w in
  let s' := store (snd (complete rid now w)) in
  s' = s ∨
  ∃ r, reservations s !! rid = Some r ∧ status r = ACTIVE ∧
       (s' = saveReservation (withStatus COMPLETED r) s ∨
        s' = saveReservation (withStatus EXPIRED r) s ∨
        s' = addAvailable (productId r) (quantity r)
               (saveReservation (withStatus EXPIRED r) s)).
Proof. destruct w as [s t js fs ck]. unfold_service. run_method; eauto 9. Qed.

Lemma create_store dto now uuid w :
  let s := store w in
  let s' := store (snd (create dto now uuid w)) in
  s' = s ∨
  ∃ p, products s !! dto_productId dto = Some p ∧
       1 ≤ dto_quantity dto ≤ availableStock p ∧
       fst (create dto now uuid w)
       = Return (newReservation (clock w) dto now uuid) ∧
       s' = saveReservation (newReservation (clock w) dto now uuid)
              (addAvailable (dto_productId dto) (- dto_quantity dto) s).
Proof. destruct w as [s t js fs ck]. unfold_service. run_method; eauto 9. Qed.


(** The second read of an overdue [complete] finding the row already
    resolved: nothing more is written. *)
Lemma completeAmid_resolved_meanwhile meanwhile r r' now w :
  faults w = [] →
  faults (meanwhile w) = [] →
  reservations (store w) !! id r = Some r →
  status r = ACTIVE →
  expiresAt r < now →
  reservations (store (meanwhile w)) !! id r = Some r' →
  status r' ≠ ACTIVE →
  completeAmid meanwhile (id r) now w = (Throw Expired, meanwhile w).
Proof.
  intros Hq Hq' Hr Hst Hlate Hr' Hst'. unfold completeAmid, bind.
  rewrite (findOne_quiet w Hq), Hr, Hst. simpl.
  destruct (Z.ltb_spec (expiresAt r) now); [|lia].
  rewrite (findOne_quiet _ Hq'), Hr'.
  by rewrite bool_decide_false.
Qed.


(** C4.  Confirming an [ACTIVE] reservation after its deadline raises the
    expired bad request, marks the reservation [EXPIRED] and adds its
    quantity to the product's available stock.  When the background expiry
    has resolved the reservation by the time [complete] reads the row
    again, [complete] still raises the same exception and writes nothing
    more: the world is the one the background expiry left, credited once. *)
Theorem complete_after_deadline_expires r now w :
  faults w = [] →
  reservations (store w) !! id r = Some r →
  status r = ACTIVE →
  expiresAt r < now →
  let released :=
    addAvailable (productId r) (quantity r)
      (saveReservation (withStatus EXPIRED r) (store w)) in
  complete (id r) now w = (Throw Expired, withStore released w)
  ∧ reservations released !! id r = Some (withStatus EXPIRED r)
  ∧ (∀ p, products (store w) !! productId r = Some p →
       availableStock <$> products released !! productId r
       = Some (availableStock p + quantity r))
  ∧ backgroundExpiry (id r) w = withStore released w
  ∧ completeAmid (backgroundExpiry (id r)) (id r) now w
    = (Throw Expired, withStore released w).
Proof.
  intros Hq Hr Hst Hlate released.
  assert (Hbg : backgroundExpiry (id r) w = withStore released w).
  { unfold backgroundExpiry. by rewrite (expireReservation_active r w). }
  split; [|split; [|split; [|split]]]; try done.
  - unfold complete, completeAmid, bind.
    rewrite (findOne_quiet w Hq), Hr, Hst. simpl.
    destruct (Z.ltb_spec (expiresAt r) now); [|lia].
    rewrite (findOne_quiet w Hq), Hr, Hst. simpl.
    rewrite (save_quiet w Hq). by rewrite incrementStock_quiet.
  - apply lookup_insert_eq.
  - intros p Hp. subst released. simpl. by rewrite lookup_alter_eq, Hp.
  - rewrite <- Hbg.
    apply (completeAmid_resolved_meanwhile _ r (withStatus EXPIRED r));
      try done; rewrite Hbg; try done.
    apply lookup_insert_eq.
Qed.

(** C5, against the code.  A [create] for at least one unit, no call of
    the driver failing.  When the product has enough stock, its available
    stock drops by exactly the quantity (its other columns and the other
    products stay as they are), and a new [ACTIVE] reservation for that
    quantity is stored under the generated id and returned.  When the
    product is unknown, or its available stock is below the quantity,
    nothing is written, as the claim says; but the exception that reaches
    the caller is not the not-found or insufficient-stock one the method
    throws: the method has rolled back before throwing, its catch block
    rolls back again, the query runner has no open transaction any more
    and raises, and that error replaces the one thrown. *)
Theorem create_outcomes dto now uuid w :
  faults w = [] →
  1 ≤ dto_quantity dto →
  reservations (store w) !! uuid = None →
  let pid := dto_productId dto in
  let q := dto_quantity dto in
  let w' := snd (create dto now uuid w) in
  (products (store w) !! pid = None →
     fst (create dto now uuid w) = Throw DriverError
     ∧ store w' = store w ∧ jobs w' = jobs w)
  ∧ (∀ p, products (store w) !! pid = Some p → availableStock p < q →
       fst (create dto now uuid w) = Throw DriverError
       ∧ store w' = store w ∧ jobs w' = jobs w)
  ∧ (∀ p, products (store w) !! pid = Some p → q ≤ availableStock p →
       ∃ r p',
         fst (create dto now uuid w) = Return r
         ∧ id r = uuid ∧ productId r = pid ∧ quantity r = q
         ∧ status r = ACTIVE
         ∧ reservations (store w') = <[uuid := r]> (reservations (store w))
         ∧ products (store w') !! pid = Some p'
         ∧ availableStock p' = availableStock p - q
         ∧ totalStock p' = totalStock p
         ∧ name p' = name p ∧ price p' = price p
         ∧ (∀ pid', pid' ≠ pid →
              products (store w') !! pid' = products (store w) !! pid')).
Proof.
  intros Hq Hpos Hfresh pid q w'. subst pid q w'.
  destruct w as [s t js fs ck]. simpl in Hq, Hfresh. subst fs.
  split; [|split].
  - intros Hnone. simpl in Hnone. unfold_service. cbn.
    destruct (Z.ltb_spec (dto_quantity dto) 1) as [?|_]; [lia|].
    cbn. by rewrite Hnone.
  - intros p Hp Hlow. simpl in Hp. unfold_service. cbn.
    destruct (Z.ltb_spec (dto_quantity dto) 1) as [?|_]; [lia|].
    cbn. rewrite Hp.
    destruct (Z.ltb_spec (availableStock p) (dto_quantity dto)) as [_|?];
      [done|lia].
  - intros p Hp Henough. simpl in Hp. unfold_service. cbn.
    destruct (Z.ltb_spec (dto_quantity dto) 1) as [?|_]; [lia|].
    cbn. rewrite Hp.
    destruct (Z.ltb_spec (availableStock p) (dto_quantity dto)) as [?|_];
      [lia|].
    cbn. eexists. eexists.
    split; [reflexivity|]. cbn.
    split; [done|]. split; [done|]. split; [done|]. split; [done|].
    split; [done|]. split; [by rewrite lookup_alter_eq, Hp|]. cbn.
    split; [lia|]. split; [done|]. split; [done|]. split; [done|].
    intros pid' Hne. by rewrite lookup_alter_ne.
Qed.

(** C6.  Whenever [create] raises, whatever the driver did, the committed
    rows are those before the call (no stock deducted, no reservation
    stored) and no job was queued.  The exception is the invalid-quantity,
    not-found or insufficient-stock one, the generic failure, or the
    driver's own error. *)
Theorem create_failure_rolls_back dto now uuid w e :
  fst (create dto now uuid w) = Throw e →
  let w' := snd (create dto now uuid w) in
  store w' = store w
  ∧ jobs w' = jobs w
  ∧ (e = InvalidQuantity ∨ e = ProductNotFound
     ∨ (∃ n, e = InsufficientStock n) ∨ e = GenericFailure ∨ e = DriverError).
Proof.
  cbv zeta. destruct w as [s t js fs ck]. unfold_service.
  run_method; intros [= <-]; repeat split; eauto 8.
Qed.

(** ** The sweep's query *)

Lemma elem_of_findExpiredPending now rs r :
  r ∈ findExpiredPending now rs ↔
  (∃ k, rs !! k = Some r) ∧ status r = ACTIVE ∧ expiresAt r < now.
Proof.
  unfold findExpiredPending, isExpiredActive.
  rewrite list_elem_of_filter, list_elem_of_fmap, andb_true_iff,
    bool_decide_eq_true, Z.ltb_lt.
  split.
  - intros [[Hst Hlt] [[k r'] [-> Hin]]].
    apply elem_of_map_to_list in Hin. eauto.
  - intros [[k Hk] [Hst Hlt]]. split; [done|].
    exists (k, r). split; [done|]. by apply elem_of_map_to_list.
Qed.

(** C8, as the code has it.  The query of the sweep returns exactly the
    [ACTIVE] reservations whose deadline is strictly before [now]; an
    [ACTIVE] reservation whose deadline equals [now] is left for a later
    sweep. *)
Theorem findExpiredPending_strictly_overdue now rs :
  (∀ r, r ∈ findExpiredPending now rs ↔
        (∃ k, rs !! k = Some r) ∧ status r = ACTIVE ∧ expiresAt r < now)
  ∧ (∀ r, expiresAt r = now → r ∉ findExpiredPending now rs)
  ∧ (∀ w, find now (withFaults [] w)
          = (Return (findExpiredPending now (reservations (store w))),
             withFaults [] w)).
Proof.
  split; [|split].
  - intros r. apply elem_of_findExpiredPending.
  - intros r Hnow Hin. apply elem_of_findExpiredPending in Hin. lia.
  - intros w. exact (find_quiet (withFaults [] w) eq_refl now).
Qed.

(** C8 as stated fails: at time 121000 the sweep's query does not return
    the [ACTIVE] reservation [Demo.r1], whose deadline is 121000. *)
Lemma findExpiredPending_omits_deadline_now :
  ¬ (∀ now rs r, r ∈ findExpiredPending now rs ↔
       (∃ k, rs !! k = Some r) ∧ status r = ACTIVE ∧ expiresAt r ≤ now).
Proof.
  intros Hall.
  assert (Hin : Demo.r1 ∈ findExpiredPending 121000 {["r1" := Demo.r1]}).
  { apply Hall. split; [|split; [done|by vm_compute]].
    exists "r1". apply lookup_singleton_eq. }
  apply elem_of_findExpiredPending in Hin as (_ & _ & Hlt).
  vm_compute in Hlt. discriminate.
Qed.

(** ** The ledger invariant *)

Lemma pendingQuantity_empty pid : pendingQuantity pid ∅ = 0.
Proof. unfold pendingQuantity. by rewrite map_fold_empty. Qed.

Lemma pendingQuantity_insert_fresh pid k r (rs : gmap string Reservation) :
  rs !! k = None →
  pendingQuantity pid (<[k:=r]> rs) = held pid r + pendingQuantity pid rs.
Proof.
  intros Hk. unfold pendingQuantity.
  rewrite map_fold_insert_L; [done| intros; lia | done].
Qed.

Lemma pendingQuantity_insert_over pid k r r0 (rs : gmap string Reservation) :
  rs !! k = Some r0 →
  pendingQuantity pid (<[k:=r]> rs)
  = held pid r + pendingQuantity pid rs - held pid r0.
Proof.
  intros Hk. rewrite <- (insert_delete_eq rs).
  rewrite pendingQuantity_insert_fresh by apply lookup_delete_eq.
  unfold pendingQuantity at 2.
  rewrite (map_fold_delete_L _ _ k r0 rs); [|intros; lia|done].
  fold (pendingQuantity pid (delete k rs)). lia.
Qed.

Lemma held_resolved pid st r : st ≠ ACTIVE → held pid (withStatus st r) = 0.
Proof.
  intros Hst. unfold held. rewrite bool_decide_false; [done|].
  simpl. by intros [? _].
Qed.

Lemma held_active pid r :
  status r = ACTIVE → held pid r = if decide (productId r = pid) then quantity r else 0.
Proof.
  intros Hst. unfold held. destruct (decide (productId r = pid)).
  - by rewrite bool_decide_true.
  - rewrite bool_decide_false; [done|]. by intros [_ ?].
Qed.

Lemma held_nonneg pid r : 1 ≤ quantity r → 0 ≤ held pid r.
Proof. intros. unfold held. case_bool_decide; lia. Qed.

Lemma consistent_initial s : initialStore s → consistent s.
Proof.
  intros [Hrs Hfull]. split.
  - unfold rowsWellFormed. rewrite Hrs. apply map_Forall_empty.
  - intros pid p Hp. destruct (Hfull _ _ Hp) as [Heq Htot].
    rewrite Hrs, pendingQuantity_empty. lia.
Qed.

Lemma consistent_resolve s rid r st :
  consistent s →
  reservations s !! rid = Some r →
  st ≠ ACTIVE →
  consistent (saveReservation (withStatus st r) s).
Proof.
  intros [Hwf Hinv] Hr Hst.
  destruct (Hwf _ _ Hr) as [Hid Hq]. split.
  - apply map_Forall_insert_2; [simpl; by rewrite Hid|done].
  - intros pid p Hp. simpl in *.
    rewrite (pendingQuantity_insert_over pid _ _ r) by (by rewrite Hid).
    rewrite held_resolved by done.
    pose proof (held_nonneg pid r Hq). destruct (Hinv _ _ Hp). lia.
Qed.

Lemma consistent_release s rid r :
  consistent s →
  reservations s !! rid = Some r →
  status r = ACTIVE →
  consistent (addAvailable (productId r) (quantity r)
                (saveReservation (withStatus EXPIRED r) s)).
Proof.
  intros [Hwf Hinv] Hr Hact.
  destruct (Hwf _ _ Hr) as [Hid Hq]. split.
  - apply map_Forall_insert_2; [simpl; by rewrite Hid|done].
  - intros pid p' Hp'. simpl in *.
    rewrite (pendingQuantity_insert_over pid _ _ r) by (by rewrite Hid).
    rewrite held_resolved by done. rewrite (held_active pid r Hact).
    apply lookup_alter_Some in Hp' as [[<- (p & Hp & ->)]|[Hne Hp]].
    + rewrite decide_True by done. simpl. destruct (Hinv _ _ Hp). lia.
    + rewrite decide_False by done. destruct (Hinv _ _ Hp). lia.
Qed.

Lemma consistent_reserve s c dto now uuid p :
  consistent s →
  reservations s !! uuid = None →
  products s !! dto_productId dto = Some p →
  1 ≤ dto_quantity dto ≤ availableStock p →
  consistent (saveReservation (newReservation c dto now uuid)
                (addAvailable (dto_productId dto) (- dto_quantity dto) s)).
Proof.
  intros [Hwf Hinv] Hfresh Hp Hq. split.
  - apply map_Forall_insert_2; [simpl; split; [done|lia]|done].
  - intros pid p' Hp'. simpl in *.
    rewrite pendingQuantity_insert_fresh by done.
    rewrite held_active by done. simpl.
    apply lookup_alter_Some in Hp' as [[<- (p0 & Hp0 & ->)]|[Hne Hp0]].
    + rewrite decide_True by done. simpl.
      assert (p0 = p) as -> by congruence. destruct (Hinv _ _ Hp). lia.
    + rewrite decide_False by done. destruct (Hinv _ _ Hp0). lia.
Qed.

Lemma consistent_perform c w :
  consistent (store w) → admissible c w → consistent (store (perform c w)).
Proof.
  intros Hc Hadm. destruct c as [dto now uuid|rid now|rid]; simpl in *.
  - destruct (create_store dto now uuid w) as [->|(p & Hp & Hq & _ & ->)];
      [done|]. by apply (consistent_reserve _ _ _ _ _ p).
  - destruct (complete_store rid now w) as [->|(r & Hr & Hst & [->|[->| ->]])];
      [done| | |].
    + by apply (consistent_resolve _ rid).
    + by apply (consistent_resolve _ rid).
    + by apply (consistent_release _ rid).
  - destruct (expireReservation_store rid w) as [->|(r & Hr & Hst & [->| ->])];
      [done| |].
    + by apply (consistent_resolve _ rid).
    + by apply (consistent_release _ rid).
Qed.

Lemma reachable_consistent w : reachable w → consistent (store w).
Proof.
  induction 1 as [w Hinit|w c fs _ IH Hadm].
  - by apply consistent_initial.
  - by apply (consistent_perform c (withFaults fs w)).
Qed.

(** The cron sweep keeps the stored rows consistent as well: it is a run
    of [expireReservation] calls. *)
Lemma forEach_expire_consistent (l : list Reservation) w :
  consistent (store w) →
  consistent
    (store (snd (forEach l (fun r => expireReservation (id r)) w))).
Proof.
  revert w. induction l as [|x rest IH]; intros w Hc; [done|].
  simpl. unfold bind at 1.
  pose proof (consistent_perform (ResolveExpiry (id x)) w Hc I) as Hx.
  simpl in Hx.
  destruct (expireReservation (id x) w) as [[[]|e] w1]; [by apply IH|done].
Qed.

Lemma handleExpiredReservations_consistent now w :
  consistent (store w) →
  consistent (store (snd (handleExpiredReservations now w))).
Proof.
  intros Hc. unfold handleExpiredReservations, tryCatch, bind at 1.
  assert (Hfind : store (snd (find now w)) = store w).
  { destruct w as [s t js fs ck]. unfold find, bind, driverCall.
    cbn. by destruct fs as [|[|] fs]. }
  destruct (find now w) as [[l|e] w1]; simpl in Hfind; rewrite <- Hfind in Hc;
    [|done].
  destruct (0 <? Z.of_nat (length l)); [|done].
  pose proof (forEach_expire_consistent l w1 Hc) as Hloop.
  by destruct (forEach l _ w1) as [[[]|e] w2].
Qed.

(** C1.  In every world reachable from a seeded store (full stock, no
    reservation) by [create], [complete] and [expireReservation] calls,
    under any behaviour of the driver, each product's available stock is
    non-negative, and the quantities of the [ACTIVE] reservations of the
    product plus its available stock do not exceed its total stock. *)
Theorem reachable_never_oversells w :
  reachable w →
  ∀ pid p, products (store w) !! pid = Some p →
    0 ≤ availableStock p ∧
    pendingQuantity pid (reservations (store w)) + availableStock p
    ≤ totalStock p.
Proof. intros Hreach. by destruct (reachable_consistent w Hreach). Qed.

(** ** The claims at work on the seeded catalogue *)

Lemma demo_w1_reachable : reachable Demo.w1.
Proof.
  apply (reachable_call Demo.w0 (Reserve Demo.order 1000 "r1") []).
  - apply reachable_init. split; [done|].
    intros pid p Hp.
    change (({["p1" := Demo.phone]} : gmap string Product) !! pid = Some p)
      in Hp.
    apply lookup_singleton_Some in Hp as [_ <-]. by simpl.
  - reflexivity.
Defined.


Example demo_w1_pending : pendingQuantity "p1" (reservations (store Demo.w1)) = 3.
Proof. by vm_compute. Qed.

Example demo_w1_available :
  availableStock <$> products (store Demo.w1) !! "p1" = Some 7.
Proof. by vm_compute. Qed.

Lemma reachable_never_oversells_witness :
  reachable Demo.w1 ∧
  ∀ pid p, products (store Demo.w1) !! pid = Some p →
    0 ≤ availableStock p ∧
    pendingQuantity pid (reservations (store Demo.w1)) + availableStock p
    ≤ totalStock p.
Proof.
  split; [exact demo_w1_reachable|].
  exact (reachable_never_oversells Demo.w1 demo_w1_reachable).
Defined.

Lemma expireReservation_twice_credits_once_witness :
  faults Demo.w1 = [] ∧
  reservations (store Demo.w1) !! id Demo.r1 = Some Demo.r1 ∧
  availableStock <$>
    products (store (snd (expireReservation "r1"
                            (snd (expireReservation "r1" Demo.w1))))) !! "p1"
  = Some (7 + 3).
Proof.
  assert (Hq : faults Demo.w1 = []) by reflexivity.
  assert (Hr : reservations (store Demo.w1) !! id Demo.r1 = Some Demo.r1)
    by (vm_compute; reflexivity).
  split; [exact Hq|split; [exact Hr|]].
  destruct (expireReservation_twice_credits_once Demo.r1 Demo.w1 Hq Hr)
    as (_ & _ & _ & _ & Hactive).
  destruct (Hactive eq_refl) as (_ & _ & Hcredit).
  apply (Hcredit (withAvailable 7 Demo.phone)). vm_compute. reflexivity.
Defined.



Lemma complete_after_deadline_expires_witness :
  faults Demo.w1 = [] ∧
  reservations (store Demo.w1) !! id Demo.r1 = Some Demo.r1 ∧
  status Demo.r1 = ACTIVE ∧
  expiresAt Demo.r1 < 121001 ∧
  fst (complete "r1" 121001 Demo.w1) = Throw Expired ∧
  snd (completeAmid (backgroundExpiry "r1") "r1" 121001 Demo.w1)
  = snd (complete "r1" 121001 Demo.w1).
Proof.
  assert (Hq : faults Demo.w1 = []) by reflexivity.
  assert (Hr : reservations (store Demo.w1) !! id Demo.r1 = Some Demo.r1)
    by (vm_compute; reflexivity).
  assert (Hst : status Demo.r1 = ACTIVE) by reflexivity.
  assert (Hlate : expiresAt Demo.r1 < 121001) by (vm_compute; reflexivity).
  split; [exact Hq|split; [exact Hr|split; [exact Hst|split; [exact Hlate|]]]].
  destruct (complete_after_deadline_expires Demo.r1 121001 Demo.w1
              Hq Hr Hst Hlate) as (Hdirect & _ & _ & _ & Hraced).
  change (id Demo.r1) with "r1" in Hdirect, Hraced.
  rewrite Hdirect, Hraced. by split.
Defined.

Lemma create_outcomes_witness :
  let dto := {| dto_productId := "p9"; dto_quantity := 1 |} in
  faults Demo.w0 = [] ∧
  1 ≤ dto_quantity dto ∧
  reservations (store Demo.w0) !! "r2" = None ∧
  products (store Demo.w0) !! "p9" = None ∧
  fst (create dto 1000 "r2" Demo.w0) = Throw DriverError ∧
  store (snd (create dto 1000 "r2" Demo.w0)) = store Demo.w0.
Proof.
  cbv zeta.
  assert (Hq : faults Demo.w0 = []) by reflexivity.
  assert (Hpos : 1 ≤ dto_quantity {| dto_productId := "p9"; dto_quantity := 1 |})
    by (vm_compute; discriminate).
  assert (Hfresh : reservations (store Demo.w0) !! "r2" = None) by reflexivity.
  assert (Hnone : products (store Demo.w0) !! "p9" = None)
    by (vm_compute; reflexivity).
  split; [exact Hq|split; [exact Hpos|split; [exact Hfresh|]]].
  split; [exact Hnone|].
  destruct (create_outcomes {| dto_productId := "p9"; dto_quantity := 1 |}
              1000 "r2" Demo.w0 Hq Hpos Hfresh) as (Hunknown & _ & _).
  destruct (Hunknown Hnone) as (Hres & Hstore & _).
  split; [exact Hres|exact Hstore].
Defined.

Lemma create_failure_rolls_back_witness :
  fst (create {| dto_productId := "p1"; dto_quantity := 11 |} 1000 "r2" Demo.w1)
  = Throw DriverError ∧
  store (snd (create {| dto_productId := "p1"; dto_quantity := 11 |}
                1000 "r2" Demo.w1))
  = store Demo.w1.
Proof.
  assert (Hfail :
    fst (create {| dto_productId := "p1"; dto_quantity := 11 |}
           1000 "r2" Demo.w1) = Throw DriverError)
    by (vm_compute; reflexivity).
  split; [exact Hfail|].
  exact (proj1 (create_failure_rolls_back _ _ _ _ _ Hfail)).
Defined.

Lemma create_rejects_quantity_below_one_witness :
  0 < 1 ∧
  create {| dto_productId := "p1"; dto_quantity := 0 |} 1000 "r2" Demo.w1
  = (Throw InvalidQuantity, Demo.w1).
Proof.
  split; [lia|].
  apply (create_rejects_quantity_below_one
           {| dto_productId := "p1"; dto_quantity := 0 |}).
  simpl. lia.
Defined.

Lemma expireReservation_unknown_id_witness :
  faults Demo.w1 = [] ∧
  reservations (store Demo.w1) !! "r9" = None ∧
  expireReservation "r9" Demo.w1 = (Return tt, Demo.w1).
Proof.
  assert (Hq : faults Demo.w1 = []) by reflexivity.
  assert (Hnone : reservations (store Demo.w1) !! "r9" = None)
    by (vm_compute; reflexivity).
  split; [exact Hq|split; [exact Hnone|]].
  exact (expireReservation_unknown_id "r9" Demo.w1 Hq Hnone).
Defined.

Lemma complete_at_deadline_confirms_witness :
  faults Demo.w1 = [] ∧
  reservations (store Demo.w1) !! id Demo.r1 = Some Demo.r1 ∧
  status Demo.r1 = ACTIVE ∧
  121000 = expiresAt Demo.r1 ∧
  ∃ completed,
    fst (complete "r1" 121000 Demo.w1) = Return completed
    ∧ status completed = COMPLETED
    ∧ reservations (store (snd (complete "r1" 121000 Demo.w1))) !! "r1"
      = Some completed
    ∧ products (store (snd (complete "r1" 121000 Demo.w1)))
      = products (store Demo.w1).
Proof.
  assert (Hq : faults Demo.w1 = []) by reflexivity.
  assert (Hr : reservations (store Demo.w1) !! id Demo.r1 = Some Demo.r1)
    by (vm_compute; reflexivity).
  assert (Hst : status Demo.r1 = ACTIVE) by reflexivity.
  assert (Hnow : 121000 = expiresAt Demo.r1) by reflexivity.
  split; [exact Hq|split; [exact Hr|split; [exact Hst|split; [exact Hnow|]]]].
  destruct (complete_at_deadline_confirms Demo.r1 121000 Demo.w1
              Hq Hr Hst Hnow)
    as (completed & Hres & Hdone & _ & _ & _ & _ & _ & Hrow & _ & Hstock).
  exists completed.
  split; [exact Hres|split; [exact Hdone|split; [exact Hrow|exact Hstock]]].
Defined.

Lemma findExpiredPending_strictly_overdue_witness :
  expiresAt Demo.r1 = 121000 ∧
  (Demo.r1 ∉ findExpiredPending 121000 (reservations (store Demo.w1))) ∧
  (Demo.r1 ∈ findExpiredPending 121001 (reservations (store Demo.w1))).
Proof.
  assert (Hnow : expiresAt Demo.r1 = 121000) by reflexivity.
  destruct (findExpiredPending_strictly_overdue 121000
              (reservations (store Demo.w1))) as (_ & Hout & _).
  destruct (findExpiredPending_strictly_overdue 121001
              (reservations (store Demo.w1))) as (Hin & _ & _).
  split; [exact Hnow|split; [exact (Hout Demo.r1 Hnow)|]].
  apply Hin. split; [|split; [reflexivity|vm_compute; reflexivity]].
  exists "r1". vm_compute. reflexivity.
Defined.

(** The exceptions [create] throws for an unknown product and for a stock
    below the quantity are both replaced by the query runner's error. *)
Example create_refusals_on_the_demo_catalogue :
  fst (create {| dto_productId := "p9"; dto_quantity := 1 |} 1000 "r2" Demo.w0)
  = Throw DriverError
  ∧ fst (create {| dto_productId := "p1"; dto_quantity := 11 |}
           1000 "r2" Demo.w0)
    = Throw DriverError.
Proof. by vm_compute. Qed.

(** Scenario: reserve, confirm at once, then the expiry job fires after the
    deadline and finds nothing to do. *)
Example confirm_then_expiry_job :
  status <$> reservations (store Demo.w2) !! "r1" = Some COMPLETED
  ∧ expireReservation "r1" Demo.w2 = (Return tt, Demo.w2)
  ∧ availableStock <$> products (store Demo.w2) !! "p1" = Some 7.
Proof. by vm_compute. Qed.

(** ** Beyond the claims: the sweep *)

Lemma withStore_id w : withStore (store w) w = w.
Proof. by destruct w. Qed.

Lemma expireReservation_quiet rid w :
  faults w = [] →
  expireReservation rid w = (Return tt, withStore (expireStore rid (store w)) w).
Proof.
  intros Hq. unfold expireReservation, tryCatch, bind, expireStore.
  rewrite (findOne_quiet w Hq).
  destruct (reservations (store w) !! rid) as [r|]; [|by rewrite withStore_id].
  case_bool_decide; simpl; [|by rewrite withStore_id].
  rewrite (save_quiet w Hq). by rewrite incrementStock_quiet.
Qed.

Lemma forEach_expire_quiet l w :
  faults w = [] →
  forEach l (fun r => expireReservation (id r)) w
  = (Return tt, withStore (expireAll l (store w)) w).
Proof.
  revert w. induction l as [|x rest IH]; intros w Hq; simpl.
  - unfold ret. by rewrite withStore_id.
  - unfold bind. rewrite (expireReservation_quiet _ w Hq).
    rewrite IH by done. done.
Qed.

Lemma handleExpiredReservations_quiet now w :
  faults w = [] →
  handleExpiredReservations now w
  = (Return tt,
     withStore (expireAll (findExpiredPending now (reservations (store w)))
                  (store w)) w).
Proof.
  intros Hq. unfold handleExpiredReservations, tryCatch, bind.
  rewrite (find_quiet w Hq).
  destruct (findExpiredPending now (reservations (store w))) as [|x rest] eqn:E.
  - simpl. unfold ret. by rewrite withStore_id.
  - replace (0 <? Z.of_nat (length (x :: rest))) with true
      by (symmetry; apply Z.ltb_lt; simpl; lia).
    by rewrite forEach_expire_quiet.
Qed.

Lemma expireRow_resolved r : status (expireRow r) ≠ ACTIVE.
Proof. unfold expireRow. by case_bool_decide. Qed.

Lemma expireStore_rows rid s :
  rowsWellFormed s →
  reservations (expireStore rid s) = alter expireRow rid (reservations s).
Proof.
  intros Hwf. unfold expireStore.
  destruct (reservations s !! rid) as [r|] eqn:Hr.
  - destruct (Hwf _ _ Hr) as [Hid _]. unfold expireRow.
    apply map_eq. intros k. rewrite lookup_alter.
    case_bool_decide; simpl.
    + rewrite Hid, lookup_insert. case_decide; [subst k|done].
      rewrite Hr. simpl. by rewrite bool_decide_true.
    + case_decide; [subst k|done]. rewrite Hr. simpl.
      by rewrite bool_decide_false.
  - apply map_eq. intros k. rewrite lookup_alter.
    case_decide; [subst k|done]. by rewrite Hr.
Qed.

Lemma rowsWellFormed_expireStore rid s :
  rowsWellFormed s → rowsWellFormed (expireStore rid s).
Proof.
  intros Hwf k r. rewrite (expireStore_rows rid s Hwf), lookup_alter_Some.
  intros [[-> (r0 & Hr0 & ->)]|[_ Hr]]; [|by apply Hwf].
  destruct (Hwf _ _ Hr0). unfold expireRow. by case_bool_decide.
Qed.

Lemma expireAll_wf l s : rowsWellFormed s → rowsWellFormed (expireAll l s).
Proof.
  revert s. induction l as [|x rest IH]; intros s Hwf; [done|].
  simpl. apply IH. by apply rowsWellFormed_expireStore.
Qed.

Lemma expireRow_idem r : expireRow (expireRow r) = expireRow r.
Proof.
  unfold expireRow at 1. by rewrite bool_decide_false by apply expireRow_resolved.
Qed.

Lemma expireAll_lookup l s k :
  rowsWellFormed s →
  reservations (expireAll l s) !! k
  = if decide (k ∈ id <$> l) then expireRow <$> reservations s !! k
    else reservations s !! k.
Proof.
  revert s. induction l as [|x rest IH]; intros s Hwf.
  - cbn [expireAll foldl fmap list_fmap].
    destruct (decide (k ∈ [])) as [Hin|_]; [by apply elem_of_nil in Hin|done].
  - cbn [expireAll foldl fmap list_fmap]. fold (expireAll rest (expireStore (id x) s)).
    rewrite IH by (by apply rowsWellFormed_expireStore).
    rewrite (expireStore_rows _ s Hwf), lookup_alter.
    destruct (decide (k ∈ id x :: (id <$> rest))) as [Hin|Hout];
      destruct (decide (k ∈ id <$> rest)) as [Hin'|Hout'];
      destruct (decide (id x = k)) as [Heq|Hne]; try done.
    + subst k. destruct (reservations s !! id x) as [r|]; [|done]. simpl.
      by rewrite expireRow_idem.
    + by rewrite Heq.
    + apply elem_of_cons in Hin as [->|Hin]; done.
    + destruct Hout. by right.
    + destruct Hout. by right.
    + destruct Hout. subst k. by left.
Qed.

(** X2.  When no driver call raises and every row is stored under its id,
    the sweep at time [now] leaves no [ACTIVE] reservation with a deadline
    before [now]: each one it found is stored as [EXPIRED]. *)
Theorem sweep_leaves_nothing_overdue now w :
  faults w = [] →
  rowsWellFormed (store w) →
  let w' := snd (handleExpiredReservations now w) in
  findExpiredPending now (reservations (store w')) = []
  ∧ ∀ r, r ∈ findExpiredPending now (reservations (store w)) →
         reservations (store w') !! id r = Some (withStatus EXPIRED r).
Proof.
  intros Hq Hwf. cbv zeta.
  rewrite (handleExpiredReservations_quiet now w Hq). cbn [snd store withStore].
  set (l := findExpiredPending now (reservations (store w))).
  split.
  - apply elem_of_nil_inv. intros r' Hin.
    apply elem_of_findExpiredPending in Hin as ([k Hk] & Hact & Hlate).
    rewrite (expireAll_lookup l _ k Hwf) in Hk.
    case_decide as Hkl.
    + destruct (reservations (store w) !! k) as [r0|]; [|done].
      simpl in Hk. injection Hk as <-. by apply expireRow_resolved in Hact.
    + apply Hkl. destruct (Hwf _ _ Hk) as [<- _].
      apply list_elem_of_fmap_2. apply elem_of_findExpiredPending. eauto.
  - intros r Hin. rewrite (expireAll_lookup l _ _ Hwf).
    rewrite decide_True by (by apply list_elem_of_fmap_2).
    apply elem_of_findExpiredPending in Hin as ([k Hk] & Hact & _).
    destruct (Hwf _ _ Hk) as [<- _]. rewrite Hk. simpl.
    unfold expireRow. by rewrite bool_decide_true.
Qed.

Lemma sameCommitment_refl s : sameCommitment s s.
Proof. intros pid p Hp. eauto. Qed.

Lemma sameCommitment_trans s1 s2 s3 :
  sameCommitment s1 s2 → sameCommitment s2 s3 → sameCommitment s1 s3.
Proof.
  intros H12 H23 pid p Hp.
  destruct (H12 _ _ Hp) as (p2 & Hp2 & Ht2 & Hs2).
  destruct (H23 _ _ Hp2) as (p3 & Hp3 & Ht3 & Hs3).
  exists p3. split; [done|]. split; lia.
Qed.

Lemma expireStore_sameCommitment rid s :
  rowsWellFormed s → sameCommitment s (expireStore rid s).
Proof.
  intros Hwf pid p Hp. unfold expireStore.
  destruct (reservations s !! rid) as [r|] eqn:Hr; [|eauto].
  case_bool_decide as Hact; [|eauto].
  destruct (Hwf _ _ Hr) as [Hid _]. simpl.
  rewrite (pendingQuantity_insert_over pid _ _ r) by (by rewrite Hid).
  rewrite held_resolved by done. rewrite (held_active pid r Hact).
  rewrite lookup_alter.
  destruct (decide (productId r = pid)) as [Heq|Hne].
  - subst pid. rewrite Hp. eexists. split; [done|]. simpl. split; lia.
  - rewrite Hp. eexists. split; [done|]. split; lia.
Qed.

Lemma expireAll_sameCommitment l s :
  rowsWellFormed s → sameCommitment s (expireAll l s).
Proof.
  revert s. induction l as [|x rest IH]; intros s Hwf;
    [apply sameCommitment_refl|].
  simpl. eapply sameCommitment_trans.
  - by apply (expireStore_sameCommitment (id x)).
  - apply IH. by apply rowsWellFormed_expireStore.
Qed.

Lemma reserve_sameCommitment s c dto now uuid p :
  reservations s !! uuid = None →
  products s !! dto_productId dto = Some p →
  sameCommitment s
    (saveReservation (newReservation c dto now uuid)
       (addAvailable (dto_productId dto) (- dto_quantity dto) s)).
Proof.
  intros Hfresh Hp pid p0 Hp0. simpl.
  rewrite pendingQuantity_insert_fresh by done.
  rewrite held_active by done. simpl.
  rewrite lookup_alter.
  destruct (decide (dto_productId dto = pid)) as [Heq|Hne].
  - subst pid. assert (p0 = p) as -> by congruence. rewrite Hp.
    eexists. split; [done|]. simpl. split; lia.
  - rewrite Hp0. eexists. split; [done|]. split; lia.
Qed.

(** X5.  Units are neither lost nor made up: for every product, the
    quantities held by [ACTIVE] reservations plus the available stock are
    the same after [create] (whatever the driver does) and after
    [expireReservation] and the sweep (no driver call raising), and the
    total stock is untouched. *)
Theorem reserve_and_expire_conserve_units w :
  rowsWellFormed (store w) →
  (∀ dto now uuid, reservations (store w) !! uuid = None →
     sameCommitment (store w) (store (snd (create dto now uuid w))))
  ∧ (∀ rid, faults w = [] →
       sameCommitment (store w) (store (snd (expireReservation rid w))))
  ∧ (∀ now, faults w = [] →
       sameCommitment (store w) (store (snd (handleExpiredReservations now w)))).
Proof.
  intros Hwf. split; [|split].
  - intros dto now uuid Hfresh.
    destruct (create_store dto now uuid w) as [->|(p & Hp & _ & _ & ->)];
      [apply sameCommitment_refl|]. by apply (reserve_sameCommitment _ _ _ _ _ p).
  - intros rid Hq. rewrite (expireReservation_quiet rid w Hq). simpl.
    by apply expireStore_sameCommitment.
  - intros now Hq. rewrite (handleExpiredReservations_quiet now w Hq). simpl.
    by apply expireAll_sameCommitment.
Qed.

(** X1.  The cron sweep never raises: whatever the driver does,
    [handleExpiredReservations] returns normally (its catch block swallows
    every exception). *)
Theorem sweep_never_raises now w :
  fst (handleExpiredReservations now w) = Return tt.
Proof.
  unfold handleExpiredReservations, tryCatch.
  match goal with |- context [bind ?m ?k w] => destruct (bind m k w) as [[[]|e] w'] end;
    done.
Qed.

Lemma rowsWellFormed_resolve s rid r st :
  rowsWellFormed s → reservations s !! rid = Some r →
  rowsWellFormed (saveReservation (withStatus st r) s).
Proof.
  intros Hwf Hr. destruct (Hwf _ _ Hr) as [Hid Hq].
  apply map_Forall_insert_2; [by simpl|done].
Qed.

Lemma expireReservation_rows rid w k r0 :
  rowsWellFormed (store w) →
  reservations (store w) !! k = Some r0 →
  let s' := store (snd (expireReservation rid w)) in
  rowsWellFormed s' ∧
  (reservations s' !! k = Some r0 ∨
   status r0 = ACTIVE ∧ k = rid ∧
   reservations s' !! k = Some (withStatus EXPIRED r0)).
Proof.
  intros Hwf Hk. cbv zeta.
  assert (Hsaved : ∀ r, reservations (store w) !! rid = Some r →
    status r = ACTIVE →
    <[id r := withStatus EXPIRED r]> (reservations (store w)) !! k = Some r0 ∨
    status r0 = ACTIVE ∧ k = rid ∧
    <[id r := withStatus EXPIRED r]> (reservations (store w)) !! k
    = Some (withStatus EXPIRED r0)).
  { intros r Hr Hact. destruct (Hwf _ _ Hr) as [Hid _]. rewrite Hid.
    destruct (decide (rid = k)) as [->|Hne].
    - right. assert (r = r0) as -> by congruence.
      by rewrite lookup_insert_eq.
    - left. by rewrite lookup_insert_ne. }
  destruct (expireReservation_store rid w) as [->|(r & Hr & Hact & [->| ->])].
  - auto.
  - split; [exact (rowsWellFormed_resolve _ rid r EXPIRED Hwf Hr)|].
    exact (Hsaved r Hr Hact).
  - split; [exact (rowsWellFormed_resolve _ rid r EXPIRED Hwf Hr)|].
    exact (Hsaved r Hr Hact).
Qed.

Lemma forEach_expire_rows l w k r0 :
  rowsWellFormed (store w) →
  reservations (store w) !! k = Some r0 →
  let s' := store (snd (forEach l (fun r => expireReservation (id r)) w)) in
  rowsWellFormed s' ∧
  (reservations s' !! k = Some r0 ∨
   status r0 = ACTIVE ∧ k ∈ id <$> l ∧
   reservations s' !! k = Some (withStatus EXPIRED r0)).
Proof.
  revert w r0. induction l as [|x rest IH]; intros w r0 Hwf Hk; cbv zeta.
  - simpl. auto.
  - cbn [forEach fmap list_fmap]. unfold bind.
    destruct (expireReservation_rows (id x) w k r0 Hwf Hk) as [Hwf1 Hrow].
    destruct (expireReservation (id x) w) as [[[]|e] w1]; simpl in Hwf1, Hrow.
    + destruct Hrow as [Hsame|(Hact & -> & Hexp)].
      * destruct (IH w1 r0 Hwf1 Hsame) as [Hwf2 [H|(H1 & H2 & H3)]].
        -- split; [done|]. by left.
        -- split; [done|]. right. split; [done|]. split; [by right|done].
      * destruct (IH w1 _ Hwf1 Hexp) as [Hwf2 [H|(H1 & _)]]; [|done].
        split; [done|]. right. split; [done|]. split; [by left|done].
    + cbn [snd]. split; [done|].
      destruct Hrow as [H|(H1 & -> & H3)]; [by left|right].
      split; [done|]. split; [by left|done].
Qed.

Lemma handleExpiredReservations_store now w :
  store (snd (handleExpiredReservations now w)) = store w ∨
  ∃ w1, store w1 = store w ∧
    store (snd (handleExpiredReservations now w))
    = store (snd (forEach (findExpiredPending now (reservations (store w)))
                    (fun r => expireReservation (id r)) w1)).
Proof.
  unfold handleExpiredReservations, tryCatch, bind.
  assert (Hfind :
    (∃ w1, store w1 = store w ∧
       find now w
       = (Return (findExpiredPending now (reservations (store w))), w1)) ∨
    (∃ e w1, store w1 = store w ∧ find now w = (Throw e, w1))).
  { destruct w as [s t js fs ck]. unfold find, bind, driverCall. cbn.
    destruct fs as [|[|] fs]; [left|right; eexists|left];
      eexists; (split; [|reflexivity]); reflexivity. }
  destruct Hfind as [(w1 & Hs & ->)|(e & w1 & Hs & ->)]; [|by left].
  destruct (0 <? _); [|by left].
  right. exists w1. split; [done|].
  by destruct (forEach _ _ w1) as [[[]|e] w2].
Qed.

(** X3.  Whatever the driver does, the sweep at time [now] changes a
    stored row only from [ACTIVE] with a deadline before [now] to
    [EXPIRED]; a resolved row and a row whose deadline is [now] or later
    stay as they are. *)
Theorem sweep_touches_only_overdue_active now w k r0 :
  rowsWellFormed (store w) →
  reservations (store w) !! k = Some r0 →
  let s' := store (snd (handleExpiredReservations now w)) in
  (reservations s' !! k = Some r0 ∨
   status r0 = ACTIVE ∧ expiresAt r0 < now ∧
   reservations s' !! k = Some (withStatus EXPIRED r0))
  ∧ (status r0 ≠ ACTIVE ∨ now ≤ expiresAt r0 → reservations s' !! k = Some r0).
Proof.
  intros Hwf Hk s'.
  assert (Hmain :
    reservations s' !! k = Some r0 ∨
    status r0 = ACTIVE ∧ expiresAt r0 < now ∧
    reservations s' !! k = Some (withStatus EXPIRED r0)).
  { subst s'.
    destruct (handleExpiredReservations_store now w) as [->|(w1 & Hs & ->)];
      [by left|].
    assert (Hwf1 : rowsWellFormed (store w1)) by (by rewrite Hs).
    assert (Hk1 : reservations (store w1) !! k = Some r0) by (by rewrite Hs).
    destruct (forEach_expire_rows
                (findExpiredPending now (reservations (store w)))
                w1 k r0 Hwf1 Hk1)
      as [_ [?|(Hact & Hin & ?)]]; [by left|right].
    apply list_elem_of_fmap in Hin as (r & -> & Hin).
    apply elem_of_findExpiredPending in Hin as ([k' Hk'] & Hr & Hlate).
    assert (r = r0) as ->; [|done].
    destruct (Hwf _ _ Hk') as [Hid _]. rewrite Hid in Hk. congruence. }
  split; [exact Hmain|].
  intros Hskip. destruct Hmain as [?|(Hact & Hlate & _)]; [done|].
  destruct Hskip; [done|lia].
Qed.

(** X4.  When the sweep's query goes through and the next driver call (the
    lookup of the first overdue reservation) raises, the sweep returns
    normally and has written nothing: the batch is not continued. *)
Theorem sweep_stops_at_first_failure now w fs :
  faults w = false :: true :: fs →
  fst (handleExpiredReservations now w) = Return tt
  ∧ store (snd (handleExpiredReservations now w)) = store w.
Proof.
  intros Hf. destruct w as [s t js fs0 ck]. simpl in Hf. subst fs0.
  unfold handleExpiredReservations, tryCatch, find, bind, driverCall. cbn.
  destruct (findExpiredPending now (reservations s)) as [|x rest]; [done|].
  cbn. unfold expireReservation, tryCatch, bind, findOne, driverCall. by cbn.
Qed.

(** ** Beyond the claims: confirming, the expiry job, the stock primitives *)

(** X6.  [complete] with an id that matches no reservation raises the
    reservation-not-found exception and leaves the world as it was. *)
Theorem complete_unknown_id rid now w :
  faults w = [] →
  reservations (store w) !! rid = None →
  complete rid now w = (Throw ReservationNotFound, w).
Proof.
  intros Hq Hnone. unfold complete, completeAmid, bind.
  by rewrite (findOne_quiet w Hq), Hnone.
Qed.

(** X7.  Confirming an [ACTIVE] reservation at any time up to its deadline
    returns it as [COMPLETED] and stores it; the products table is
    untouched, the units held for its product drop by its quantity (they
    are sold, not returned), and a later [expireReservation] on it does
    nothing. *)
Theorem complete_within_hold r now w :
  faults w = [] →
  reservations (store w) !! id r = Some r →
  status r = ACTIVE →
  now ≤ expiresAt r →
  let w' := snd (complete (id r) now w) in
  fst (complete (id r) now w) = Return (withStatus COMPLETED r)
  ∧ reservations (store w') = <[id r := withStatus COMPLETED r]> (reservations (store w))
  ∧ products (store w') = products (store w)
  ∧ (∀ pid, pendingQuantity pid (reservations (store w'))
            = pendingQuantity pid (reservations (store w))
              - (if decide (productId r = pid) then quantity r else 0))
  ∧ expireReservation (id r) w' = (Return tt, w').
Proof.
  intros Hq Hr Hact Hnow. cbv zeta.
  unfold complete, completeAmid, bind.
  rewrite (findOne_quiet w Hq), Hr, Hact. simpl.
  destruct (Z.ltb_spec (expiresAt r) now) as [?|_]; [lia|].
  rewrite (save_quiet w Hq). simpl.
  split; [done|]. split; [done|]. split; [done|]. split.
  - intros pid. rewrite (pendingQuantity_insert_over pid _ _ r) by done.
    rewrite held_resolved by done. rewrite (held_active pid r Hact). lia.
  - apply (expireReservation_resolved _ (withStatus COMPLETED r)); [done| |done].
    apply lookup_insert_eq.
Qed.

Lemma create_quiet dto now uuid w p :
  faults w = [] →
  products (store w) !! dto_productId dto = Some p →
  1 ≤ dto_quantity dto ≤ availableStock p →
  create dto now uuid w
  = (Return (newReservation (clock w) dto now uuid),
     {| store := saveReservation (newReservation (clock w) dto now uuid)
                   (addAvailable (dto_productId dto) (- dto_quantity dto)
                      (store w));
        txn := None;
        jobs := jobs w ++ [{| reservationId := uuid; delay := 120000 |}];
        faults := [];
        clock := clock w |}).
Proof.
  intros Hq Hp Hrange. destruct w as [s t js fs ck]. simpl in *. subst fs.
  unfold_service. cbn.
  destruct (Z.ltb_spec (dto_quantity dto) 1) as [?|_]; [lia|].
  cbn. rewrite Hp.
  destruct (Z.ltb_spec (availableStock p) (dto_quantity dto)) as [?|_]; [lia|].
  by cbn.
Qed.

Lemma addAvailable_cancel pid q s :
  addAvailable pid q (addAvailable pid (- q) s) = s.
Proof.
  destruct s as [ps rs]. unfold addAvailable. simpl. f_equal.
  rewrite alter_alter_eq. apply alter_id.
  intros [nm pr a t] _. unfold withAvailable. simpl. f_equal. lia.
Qed.

(** X8.  A successful [create] queues a job for the new reservation with a
    delay of 120000 ms; when the processor runs that job, the products
    table is exactly what it was before the reservation, the reservation
    is stored with status [EXPIRED] (for the same product and quantity),
    and the other reservations are as they were. *)
Theorem reserve_then_expiry_job_restores_stock dto now uuid w p :
  faults w = [] →
  reservations (store w) !! uuid = None →
  products (store w) !! dto_productId dto = Some p →
  1 ≤ dto_quantity dto ≤ availableStock p →
  let w1 := snd (create dto now uuid w) in
  let job := {| reservationId := uuid; delay := 120000 |} in
  let w2 := snd (handleExpiration job w1) in
  jobs w1 = jobs w ++ [job]
  ∧ fst (handleExpiration job w1) = Return tt
  ∧ products (store w2) = products (store w)
  ∧ (∃ r, reservations (store w2) !! uuid = Some r
          ∧ status r = EXPIRED
          ∧ productId r = dto_productId dto
          ∧ quantity r = dto_quantity dto)
  ∧ (∀ k, k ≠ uuid →
       reservations (store w2) !! k = reservations (store w) !! k).
Proof.
  intros Hq Hfresh Hp Hrange. cbv zeta.
  rewrite (create_quiet dto now uuid w p Hq Hp Hrange). cbn [snd jobs].
  split; [done|]. unfold handleExpiration. cbn [reservationId].
  rewrite (expireReservation_active (newReservation (clock w) dto now uuid));
    [|done|apply lookup_insert_eq|done].
  cbn [fst snd store withStore]. split; [done|]. split; [|split].
  - change (products (addAvailable (dto_productId dto) (dto_quantity dto)
              (addAvailable (dto_productId dto) (- dto_quantity dto) (store w)))
            = products (store w)).
    by rewrite addAvailable_cancel.
  - eexists. split; [apply lookup_insert_eq|]. done.
  - intros k Hk. simpl. by rewrite !lookup_insert_ne.
Qed.

(** X10.  [decrementStock] followed by [incrementStock] of the same
    quantity restores the world; on an unknown product [decrementStock]
    changes nothing; on a known one it subtracts the quantity with no
    lower bound. *)
Theorem decrement_then_increment_stock pid q w :
  faults w = [] →
  (decrementStock pid q >> incrementStock pid q) w = (Return tt, w)
  ∧ (products (store w) !! pid = None → decrementStock pid q w = (Return tt, w))
  ∧ (∀ p, products (store w) !! pid = Some p →
       products (store (snd (decrementStock pid q w))) !! pid
       = Some (withAvailable (availableStock p - q) p)).
Proof.
  intros Hq. unfold decrementStock, bind.
  rewrite (driverCall_quiet w Hq). split; [|split].
  - rewrite incrementStock_quiet by done. cbn [store withStore].
    rewrite addAvailable_cancel. by destruct w.
  - intros Hnone. destruct w as [[ps rs] t js fs ck]. simpl in *.
    unfold withStore, addAvailable. simpl. do 3 f_equal.
    apply alter_id. intros x Hx. congruence.
  - intros p Hp. simpl. rewrite lookup_alter_eq, Hp. simpl.
    by rewrite Z.add_opp_r.
Qed.

(** ** Beyond the claims: statistics and seeding *)

Lemma tally_empty st : tally st ∅ = 0.
Proof. unfold tally. by rewrite map_fold_empty. Qed.

Lemma tally_insert_fresh st k r (rs : gmap string Reservation) :
  rs !! k = None → tally st (<[k:=r]> rs) = counts st r + tally st rs.
Proof.
  intros Hk. unfold tally. rewrite map_fold_insert_L; [done|intros; lia|done].
Qed.

Lemma tally_insert_over st k r r0 (rs : gmap string Reservation) :
  rs !! k = Some r0 →
  tally st (<[k:=r]> rs) = counts st r + tally st rs - counts st r0.
Proof.
  intros Hk. rewrite <- (insert_delete_eq rs).
  rewrite tally_insert_fresh by apply lookup_delete_eq.
  unfold tally at 2.
  rewrite (map_fold_delete_L _ _ k r0 rs); [|intros; lia|done].
  fold (tally st (delete k rs)). unfold counts. lia.
Qed.

Lemma tally_total (rs : gmap string Reservation) :
  tally ACTIVE rs + tally COMPLETED rs + tally EXPIRED rs = Z.of_nat (size rs)
  ∧ 0 ≤ tally ACTIVE rs ∧ 0 ≤ tally COMPLETED rs ∧ 0 ≤ tally EXPIRED rs.
Proof.
  induction rs as [|k r rs Hk IH] using map_ind.
  - rewrite !tally_empty, map_size_empty. lia.
  - rewrite !tally_insert_fresh by done. rewrite map_size_insert_None by done.
    unfold counts. destruct (status r); simpl; lia.
Qed.

Lemma getStatistics_quiet w :
  faults w = [] →
  getStatistics w = (Return (statisticsOf (reservations (store w))), w).
Proof.
  intros Hq. unfold getStatistics, countBy, bind.
  by rewrite !(driverCall_quiet w Hq).
Qed.

(** X11.  [getStatistics] writes nothing, whatever the driver does; when
    no call raises, its three counts are non-negative and add up to the
    number of stored reservations. *)
Theorem getStatistics_counts_every_reservation_once w :
  store (snd (getStatistics w)) = store w
  ∧ (faults w = [] →
     ∃ st, getStatistics w = (Return st, w)
           ∧ active st + completed st + expired st
             = Z.of_nat (size (reservations (store w)))
           ∧ 0 ≤ active st ∧ 0 ≤ completed st ∧ 0 ≤ expired st).
Proof.
  split.
  - destruct w as [s t js fs ck]. unfold getStatistics, countBy, bind, driverCall, ret.
    cbn. destruct fs as [|[|] [|[|] [|[|] fs]]]; done.
  - intros Hq. exists (statisticsOf (reservations (store w))).
    split; [by apply getStatistics_quiet|]. apply tally_total.
Qed.

(** X12.  The statistics follow the lifecycle: a successful [create] adds
    one to [active]; confirming an [ACTIVE] reservation within its hold
    moves one from [active] to [completed]; expiring it moves one from
    [active] to [expired]. *)
Theorem getStatistics_follows_lifecycle w :
  faults w = [] →
  let rs := reservations (store w) in
  let stats w' := fst (getStatistics w') in
  stats w = Return {| active := tally ACTIVE rs; completed := tally COMPLETED rs;
                      expired := tally EXPIRED rs |}
  ∧ (∀ dto now uuid p,
       rs !! uuid = None →
       products (store w) !! dto_productId dto = Some p →
       1 ≤ dto_quantity dto ≤ availableStock p →
       stats (snd (create dto now uuid w))
       = Return {| active := tally ACTIVE rs + 1;
                   completed := tally COMPLETED rs;
                   expired := tally EXPIRED rs |})
  ∧ (∀ r now,
       rs !! id r = Some r → status r = ACTIVE → now ≤ expiresAt r →
       stats (snd (complete (id r) now w))
       = Return {| active := tally ACTIVE rs - 1;
                   completed := tally COMPLETED rs + 1;
                   expired := tally EXPIRED rs |})
  ∧ (∀ r,
       rs !! id r = Some r → status r = ACTIVE →
       stats (snd (expireReservation (id r) w))
       = Return {| active := tally ACTIVE rs - 1;
                   completed := tally COMPLETED rs;
                   expired := tally EXPIRED rs + 1 |}).
Proof.
  intros Hq rs stats. subst rs stats. cbv beta.
  split; [by rewrite getStatistics_quiet|]. split; [|split].
  - intros dto now uuid p Hfresh Hp Hrange.
    rewrite (create_quiet dto now uuid w p Hq Hp Hrange). cbn [snd].
    rewrite getStatistics_quiet by done. cbn [fst store]. f_equal.
    unfold statisticsOf. simpl.
    rewrite !tally_insert_fresh by done. unfold counts. simpl.
    repeat case_bool_decide; try done. f_equal; lia.
  - intros r now Hr Hact Hnow.
    unfold complete, completeAmid, bind.
    rewrite (findOne_quiet w Hq), Hr, Hact. simpl.
    destruct (Z.ltb_spec (expiresAt r) now) as [?|_]; [lia|].
    rewrite (save_quiet w Hq). cbn [snd].
    rewrite getStatistics_quiet by done. cbn [fst store withStore]. f_equal.
    unfold statisticsOf. simpl.
    rewrite !(tally_insert_over _ _ _ r) by done. unfold counts.
    rewrite Hact. simpl. repeat case_bool_decide; try done. f_equal; lia.
  - intros r Hr Hact.
    rewrite (expireReservation_active r w Hq Hr Hact). cbn [snd].
    rewrite getStatistics_quiet by done. cbn [fst store withStore]. f_equal.
    unfold statisticsOf. simpl.
    rewrite !(tally_insert_over _ _ _ r) by done. unfold counts.
    rewrite Hact. simpl. repeat case_bool_decide; try done. f_equal; lia.
Qed.

Lemma insertProducts_lookup rows ps pid p :
  insertProducts rows ps !! pid = Some p →
  p ∈ snd <$> rows ∨ ps !! pid = Some p.
Proof.
  revert ps. induction rows as [|[k x] rest IH]; intros ps; simpl; [auto|].
  intros H. apply IH in H as [H|H].
  - left. by right.
  - apply lookup_insert_Some in H as [[_ <-]|[_ H]]; [left; by left|by right].
Qed.

Lemma insertProducts_nonempty rows ps :
  rows ≠ [] ∨ ps ≠ ∅ → insertProducts rows ps ≠ ∅.
Proof.
  revert ps. induction rows as [|[k x] rest IH]; intros ps; simpl.
  - by intros [?|?].
  - intros _. apply IH. right. apply insert_non_empty.
Qed.

Lemma sampleProducts_full p :
  p ∈ sampleProducts → availableStock p = totalStock p ∧ 0 ≤ totalStock p.
Proof.
  unfold sampleProducts. rewrite !elem_of_cons, elem_of_nil.
  intros [->|[->|[->|[->|[->|[->|[]]]]]]]; simpl; lia.
Qed.

Lemma countProducts_quiet w :
  faults w = [] →
  countProducts w = (Return (Z.of_nat (size (products (store w)))), w).
Proof. intros Hq. unfold countProducts, bind. by rewrite driverCall_quiet. Qed.

(** X13.  [seedProducts] on a non-empty products table changes nothing; on
    an empty one it stores only rows of the sample catalogue, each with
    its available stock equal to its total stock, touches no reservation,
    gives a store that is a freshly seeded one when there is no
    reservation, and a second seeding does nothing. *)
Theorem seedProducts_seeds_once uuids w :
  faults w = [] →
  (products (store w) ≠ ∅ → seedProducts uuids w = (Return tt, w))
  ∧ (products (store w) = ∅ →
     let w' := snd (seedProducts uuids w) in
     fst (seedProducts uuids w) = Return tt
     ∧ products (store w') = insertProducts (zip uuids sampleProducts) ∅
     ∧ reservations (store w') = reservations (store w)
     ∧ (∀ pid p, products (store w') !! pid = Some p →
          p ∈ sampleProducts ∧ availableStock p = totalStock p)
     ∧ (reservations (store w) = ∅ → initialStore (store w'))
     ∧ (uuids ≠ [] → ∀ uuids', seedProducts uuids' w' = (Return tt, w'))).
Proof.
  intros Hq. unfold seedProducts, bind.
  rewrite (countProducts_quiet w Hq). split.
  - intros Hne.
    destruct (Z.eqb_spec (Z.of_nat (size (products (store w)))) 0) as [H0|_];
      [|done].
    destruct Hne. apply map_size_empty_iff. lia.
  - intros Hempty. rewrite Hempty, map_size_empty.
    change (Z.of_nat 0 =? 0) with true. cbv iota.
    unfold saveProducts, bind. rewrite (driverCall_quiet w Hq).
    cbn [fst snd store withStore products reservations]. rewrite Hempty.
    assert (Hrows : ∀ pid p,
      insertProducts (zip uuids sampleProducts) ∅ !! pid = Some p →
      p ∈ sampleProducts ∧ availableStock p = totalStock p ∧ 0 ≤ totalStock p).
    { intros pid p Hp. apply insertProducts_lookup in Hp as [Hin|Hp]; [|done].
      assert (p ∈ sampleProducts).
      { apply list_elem_of_fmap in Hin as ([k x] & -> & Hin).
        by apply elem_of_zip_r in Hin. }
      split; [done|]. by apply sampleProducts_full. }
    split; [done|]. split; [done|]. split; [done|]. split; [|split].
    + intros pid p Hp. destruct (Hrows _ _ Hp) as (? & ? & ?). done.
    + intros Hrs. split; [done|]. intros pid p Hp.
      destruct (Hrows _ _ Hp) as (? & ? & ?). done.
    + intros Hne uuids'.
      set (w' := withStore _ w).
      assert (Hq' : faults w' = []) by done.
      rewrite (countProducts_quiet w' Hq').
      destruct (Z.eqb_spec (Z.of_nat (size (products (store w')))) 0) as [H0|_];
        [|done].
      exfalso. assert (Hz : size (products (store w')) = 0%nat) by lia.
      apply map_size_empty_iff in Hz. revert Hz. subst w'. simpl.
      apply insertProducts_nonempty. left.
      destruct uuids; [done|]. done.
Qed.

(** ** Beyond the claims: a failing queue *)

(** X9.  When only the queue raises, [create] still returns the committed
    [ACTIVE] reservation and queues nothing.  A sweep at a time after the
    deadline stored in that reservation then marks it [EXPIRED]; a sweep
    at or before that deadline leaves it as it is.  Either way the units
    held plus available are what they were before the reservation. *)
Theorem queue_failure_is_swallowed_and_sweep_expires dto now uuid w p later :
  faults w = [false; false; false; false; false; false; true] →
  rowsWellFormed (store w) →
  reservations (store w) !! uuid = None →
  products (store w) !! dto_productId dto = Some p →
  1 ≤ dto_quantity dto ≤ availableStock p →
  let w1 := snd (create dto now uuid w) in
  let w2 := snd (handleExpiredReservations later w1) in
  ∃ r,
    fst (create dto now uuid w) = Return r
    ∧ jobs w1 = jobs w
    ∧ reservations (store w1) !! uuid = Some r
    ∧ status r = ACTIVE
    ∧ quantity r = dto_quantity dto
    ∧ (expiresAt r < later →
         ∃ r', reservations (store w2) !! uuid = Some r'
               ∧ status r' = EXPIRED
               ∧ quantity r' = quantity r
               ∧ productId r' = productId r)
    ∧ (later ≤ expiresAt r → reservations (store w2) !! uuid = Some r)
    ∧ sameCommitment (store w) (store w2).
Proof.
  intros Hf Hwf Hfresh Hp Hrange. cbv zeta.
  set (r := newReservation (clock w) dto now uuid).
  assert (Hcreate : create dto now uuid w
    = (Return r,
       {| store := saveReservation r
                     (addAvailable (dto_productId dto) (- dto_quantity dto)
                        (store w));
          txn := None; jobs := jobs w; faults := []; clock := clock w |})).
  { subst r. destruct w as [s t js fs ck]. simpl in *. subst fs.
    unfold_service. cbn.
    destruct (Z.ltb_spec (dto_quantity dto) 1) as [?|_]; [lia|].
    cbn. rewrite Hp.
    destruct (Z.ltb_spec (availableStock p) (dto_quantity dto)) as [?|_]; [lia|].
    by cbn. }
  rewrite Hcreate. cbn [fst snd jobs].
  set (w1 := {| store := _; txn := None; jobs := jobs w; faults := [];
                clock := clock w |}).
  assert (Hwf1 : rowsWellFormed (store w1)).
  { apply map_Forall_insert_2; [simpl; split; [done|lia]|done]. }
  assert (Hrow : reservations (store w1) !! uuid = Some r)
    by apply lookup_insert_eq.
  exists r. split; [done|]. split; [done|]. split; [done|].
  split; [done|]. split; [done|].
  rewrite (handleExpiredReservations_quiet later w1 eq_refl).
  cbn [snd store withStore].
  assert (Hfound : uuid ∈ id <$> findExpiredPending later
                                   (reservations (store w1))
                   ↔ expiresAt r < later).
  { split.
    - intros Hin. apply list_elem_of_fmap in Hin as (r0 & Hid & Hin).
      apply elem_of_findExpiredPending in Hin as ([k Hk] & _ & Hlate).
      destruct (Hwf1 _ _ Hk) as [Hk0 _].
      assert (r0 = r) as -> by congruence. done.
    - intros Hlate. change uuid with (id r) at 1.
      apply list_elem_of_fmap_2, elem_of_findExpiredPending. eauto. }
  split; [|split].
  - intros Hlate. rewrite (expireAll_lookup _ _ uuid Hwf1), Hrow.
    rewrite decide_True by (by apply Hfound).
    eexists. split; [reflexivity|]. done.
  - intros Hearly. rewrite (expireAll_lookup _ _ uuid Hwf1), Hrow.
    rewrite decide_False; [done|]. rewrite Hfound. lia.
  - eapply sameCommitment_trans; [|by apply expireAll_sameCommitment].
    by apply (reserve_sameCommitment _ _ _ _ _ p).
Qed.

(** ** Beyond the claims: the client's helpers *)

(** X14.  [getRemainingTime] is never negative and never more than the
    time truly left: it is the number of whole seconds left, zero exactly
    when less than a second is left; it is zero whenever
    [isReservationExpired] holds, never grows as time passes, and is what
    the timer's [calculateTimeLeft] computes. *)
Theorem getRemainingTime_never_overstates now r :
  0 ≤ getRemainingTime now r
  ∧ 1000 * getRemainingTime now r ≤ Z.max 0 (expiresAt r - now)
  ∧ (0 < getRemainingTime now r →
       expiresAt r - now < 1000 * (getRemainingTime now r + 1))
  ∧ (getRemainingTime now r = 0 ↔ expiresAt r - now < 1000)
  ∧ (isReservationExpired now r = true → getRemainingTime now r = 0)
  ∧ (∀ later, now ≤ later → getRemainingTime later r ≤ getRemainingTime now r)
  ∧ calculateTimeLeft now r = getRemainingTime now r.
Proof.
  unfold getRemainingTime, calculateTimeLeft, isReservationExpired.
  split; [|split; [|split; [|split; [|split; [|split]]]]].
  - lia.
  - Z.div_mod_to_equations. lia.
  - Z.div_mod_to_equations. lia.
  - Z.div_mod_to_equations. lia.
  - intros H. apply Z.leb_le in H. Z.div_mod_to_equations. lia.
  - intros later Hle.
    assert ((expiresAt r - later) / 1000 ≤ (expiresAt r - now) / 1000)
      by (apply Z.div_le_mono; lia).
    lia.
  - done.
Qed.

Lemma split_local_time l :
  (l / 86400000) * 86400000 + ((l / 3600000) mod 24) * 3600000
  + ((l / 60000) mod 60) * 60000 + ((l / 1000) mod 60) * 1000 + l mod 1000
  = l.
Proof.
  assert (H1 : l / 60000 = (l / 1000) / 60)
    by (rewrite Z.div_div; [done|lia|lia]).
  assert (H2 : l / 3600000 = (l / 60000) / 60)
    by (rewrite Z.div_div; [done|lia|lia]).
  assert (H3 : l / 86400000 = (l / 3600000) / 24)
    by (rewrite Z.div_div; [done|lia|lia]).
  pose proof (Z.div_mod l 1000 ltac:(lia)).
  pose proof (Z.div_mod (l / 1000) 60 ltac:(lia)).
  pose proof (Z.div_mod (l / 60000) 60 ltac:(lia)).
  pose proof (Z.div_mod (l / 3600000) 24 ltac:(lia)).
  rewrite <- H1 in *. rewrite <- H2 in *. rewrite <- H3 in *. lia.
Qed.

(** Two minutes on, in local time. *)
Lemma setMinutes_plus_two c t :
  setMinutes c t (getMinutes c t + 2) = UTC c (LocalTime c t + 120000).
Proof.
  unfold setMinutes, getMinutes. cbv zeta. f_equal.
  pose proof (split_local_time (LocalTime c t)). lia.
Qed.

(** X15.  The deadline of the reservation [create] makes at time [t0] is
    [t0 + 120000] plus the change of the local-time offset across these
    two minutes of local time.  When that offset does not change, the
    remaining time is 120 at [t0] and at most 120 afterwards, it reads 0
    from one second before the deadline on, and [isReservationExpired]
    holds exactly from [t0 + 120000] on. *)
Theorem fresh_reservation_counts_down_from_120 c dto t0 uuid :
  let r := newReservation c dto t0 uuid in
  expiresAt r
  = t0 + 120000
    + (localOffset c t0 - localOffsetOfLocal c (LocalTime c t0 + 120000))
  ∧ (localOffsetOfLocal c (LocalTime c t0 + 120000) = localOffset c t0 →
       expiresAt r = t0 + 120000
       ∧ getRemainingTime t0 r = 120
       ∧ (∀ now, t0 ≤ now → getRemainingTime now r ≤ 120)
       ∧ (∀ now, getRemainingTime now r = 0 ↔ t0 + 119000 < now)
       ∧ (∀ now, isReservationExpired now r = true ↔ t0 + 120000 ≤ now)).
Proof.
  cbv zeta.
  assert (Hdeadline : expiresAt (newReservation c dto t0 uuid)
    = t0 + 120000
      + (localOffset c t0 - localOffsetOfLocal c (LocalTime c t0 + 120000))).
  { cbn [expiresAt newReservation]. rewrite setMinutes_plus_two.
    unfold UTC, LocalTime. lia. }
  split; [exact Hdeadline|].
  intros Hsame. unfold getRemainingTime, isReservationExpired.
  rewrite Hdeadline, Hsame.
  replace (t0 + 120000 + (localOffset c t0 - localOffset c t0))
    with (t0 + 120000) by lia.
  split; [done|]. split; [|split; [|split]].
  - replace (t0 + 120000 - t0) with 120000 by lia. done.
  - intros now Hnow. Z.div_mod_to_equations. lia.
  - intros now. Z.div_mod_to_equations. lia.
  - intros now. rewrite Z.leb_le. lia.
Qed.

(** Around the fall-back of [Demo.fallBack]: a reservation made at 05:59
    UTC (01:59 local, before the change) is held for 62 minutes, and one
    made at 06:30 UTC (01:30 local, after the change) has a deadline 58
    minutes in the past. *)
Example deadline_around_fall_back :
  expiresAt (newReservation Demo.fallBack Demo.order 21540000 "r1")
  = 21540000 + 62 * 60000
  ∧ expiresAt (newReservation Demo.fallBack Demo.order 23400000 "r1")
    = 23400000 - 58 * 60000.
Proof. by vm_compute. Qed.

(** X16.  During the last second of the hold, deadline included, the
    timer's countdown reads 0 although [complete] would still confirm the
    reservation; [isReservationExpired] holds in that second only at the
    deadline itself. *)
Theorem countdown_zero_while_still_confirmable r now w :
  faults w = [] →
  reservations (store w) !! id r = Some r →
  status r = ACTIVE →
  expiresAt r - 1000 < now ≤ expiresAt r →
  calculateTimeLeft now r = 0
  ∧ fst (complete (id r) now w) = Return (withStatus COMPLETED r)
  ∧ isReservationExpired now r = bool_decide (now = expiresAt r).
Proof.
  intros Hq Hr Hact Hnow. split; [|split].
  - unfold calculateTimeLeft. Z.div_mod_to_equations. lia.
  - unfold complete, completeAmid, bind.
    rewrite (findOne_quiet w Hq), Hr, Hact. simpl.
    destruct (Z.ltb_spec (expiresAt r) now) as [?|_]; [lia|].
    by rewrite (save_quiet w Hq).
  - unfold isReservationExpired. case_bool_decide.
    + apply Z.leb_le. lia.
    + apply Z.leb_gt. lia.
Qed.

Lemma getStockStatus_cases p :
  (availableStock p = 0 ∧ getStockStatus p = "out-of-stock")
  ∨ (availableStock p ≠ 0 ∧ availableStock p ≤ 5 ∧ getStockStatus p = "low-stock")
  ∨ (5 < availableStock p ∧ getStockStatus p = "in-stock").
Proof.
  unfold getStockStatus.
  destruct (Z.eqb_spec (availableStock p) 0); [by left|right].
  destruct (Z.leb_spec (availableStock p) 5); [by left|by right].
Qed.

(** X17.  [getStockStatus] is out-of-stock exactly at zero stock.  For a
    non-negative available stock (so for every product of a reachable
    world) the in-stock filter of the product list keeps the products that
    are not out-of-stock and the low-stock filter those whose status is
    low-stock; a negative stock has status low-stock but passes neither
    filter. *)
Theorem stock_status_agrees_with_filters p :
  (getStockStatus p = "out-of-stock" ↔ availableStock p = 0)
  ∧ (0 ≤ availableStock p →
       (passesFilter ShowInStock p = true ↔ getStockStatus p ≠ "out-of-stock")
       ∧ (passesFilter ShowLowStock p = true ↔ getStockStatus p = "low-stock"))
  ∧ (availableStock p < 0 →
       getStockStatus p = "low-stock"
       ∧ passesFilter ShowLowStock p = false
       ∧ passesFilter ShowInStock p = false)
  ∧ (∀ w pid, reachable w → products (store w) !! pid = Some p →
       (passesFilter ShowInStock p = true ↔ getStockStatus p ≠ "out-of-stock")
       ∧ (passesFilter ShowLowStock p = true ↔ getStockStatus p = "low-stock")).
Proof.
  assert (Hnonneg : 0 ≤ availableStock p →
       (passesFilter ShowInStock p = true ↔ getStockStatus p ≠ "out-of-stock")
       ∧ (passesFilter ShowLowStock p = true ↔ getStockStatus p = "low-stock")).
  { intros H0. unfold passesFilter.
    rewrite andb_true_iff, Z.ltb_lt, Z.leb_le.
    destruct (getStockStatus_cases p) as [[? ->]|[(? & ? & ->)|[? ->]]];
      split; split; try done; try lia; intros; try lia; try done. }
  split; [|split; [exact Hnonneg|split]].
  - destruct (getStockStatus_cases p) as [[? ->]|[(? & ? & ->)|[? ->]]];
      split; try done; lia.
  - intros Hneg. unfold passesFilter.
    destruct (getStockStatus_cases p) as [[? ->]|[(? & ? & ->)|[? ->]]];
      try lia.
    split; [done|].
    assert ((0 <? availableStock p) = false) as -> by (apply Z.ltb_ge; lia).
    done.
  - intros w pid Hreach Hp. apply Hnonneg.
    destruct (reachable_consistent w Hreach) as [_ Hinv].
    by destruct (Hinv _ _ Hp).
Qed.

(** X18.  The checks of the product card pass exactly when the quantity is
    between 1 and the available stock of the product as fetched.  When
    the card's product is the stored row and no call of the driver fails,
    [create] then returns an [ACTIVE] reservation of that quantity, and
    every request the card refuses is refused by [create] too, with
    nothing written: with the invalid-quantity bad request when the
    quantity is below 1, and otherwise (a quantity above the stock) with
    the error of the second rollback in place of the insufficient-stock
    bad request. *)
Theorem card_and_service_accept_the_same_requests pid q now uuid w p :
  faults w = [] →
  products (store w) !! pid = Some p →
  let dto := {| dto_productId := pid; dto_quantity := q |} in
  (handleReserveError q p = None ↔ 1 ≤ q ≤ availableStock p)
  ∧ (handleReserveError q p = None →
       ∃ r, fst (create dto now uuid w) = Return r
            ∧ id r = uuid ∧ productId r = pid ∧ quantity r = q
            ∧ status r = ACTIVE)
  ∧ (handleReserveError q p ≠ None →
       ∃ e, fst (create dto now uuid w) = Throw e
            ∧ store (snd (create dto now uuid w)) = store w
            ∧ (q < 1 → e = InvalidQuantity)
            ∧ (1 ≤ q → e = DriverError)).
Proof.
  intros Hq Hp dto.
  assert (Hguard : handleReserveError q p = None ↔ 1 ≤ q ≤ availableStock p).
  { unfold handleReserveError.
    destruct (Z.ltb_spec (availableStock p) q);
      destruct (Z.ltb_spec q 1); split; try done; lia. }
  split; [exact Hguard|]. split.
  - intros Hnone. apply Hguard in Hnone.
    rewrite (create_quiet dto now uuid w p Hq Hp Hnone).
    eexists. split; [reflexivity|]. done.
  - intros Hsome.
    assert (Hbad : q < 1 ∨ 1 ≤ q ∧ availableStock p < q).
    { destruct (Z.lt_ge_cases q 1); [by left|right]. split; [lia|].
      destruct (Z.lt_ge_cases (availableStock p) q); [done|].
      destruct Hsome. apply Hguard. lia. }
    destruct w as [s t js fs ck]. simpl in Hq, Hp. subst fs.
    unfold_service. cbn.
    destruct (Z.ltb_spec q 1) as [?|?].
    + eexists. split; [reflexivity|]. split; [done|]. split; [done|lia].
    + destruct Hbad as [?|[_ Hlow]]; [lia|].
      cbn. rewrite Hp.
      destruct (Z.ltb_spec (availableStock p) q) as [_|?]; [|lia].
      cbn. eexists. split; [reflexivity|]. split; [done|]. split; [lia|done].
Qed.

(** ** Beyond the claims: [fetchWithRetry] *)

Lemma backoff_cons retryDelay i retries :
  backoff retryDelay i (S retries)
  = retryDelay * (i + 1) :: backoff retryDelay (i + 1) retries.
Proof.
  unfold backoff. cbn [seq fmap list_fmap]. f_equal.
  rewrite <- fmap_S_seq, <- list_fmap_compose.
  apply list_fmap_ext. intros _ j _. simpl. f_equal. lia.
Qed.

Lemma retrySpec_retry remaining' i retryDelay lastError lastError' n res :
  remaining' ≠ 0%nat →
  retriable (answers n (requests n)) →
  retrySpec remaining' (i + 1) retryDelay lastError'
    (sleep (retryDelay * (i + 1))
       {| answers := answers n; requests := S (requests n); slept := slept n |})
    res →
  retrySpec (S remaining') i retryDelay lastError n res.
Proof.
  intros Hrem Hfirst (Hans & made & Hreq & Hle & Hge & Hslept & Hprior & Hout).
  simpl in *. specialize (Hge Hrem).
  split; [done|]. exists (S made).
  split; [lia|]. split; [lia|]. split; [lia|]. split.
  - rewrite Hslept, <- app_assoc. f_equal. simpl.
    replace (made - 0)%nat with (S (made - 1)) by lia.
    by rewrite backoff_cons.
  - split.
    + intros [|k] Hk.
      * by rewrite Nat.add_0_r.
      * replace (requests n + S k)%nat with (S (requests n) + k)%nat by lia.
        apply Hprior. lia.
    + replace (requests n + S made - 1)%nat
        with (S (requests n) + made - 1)%nat by lia.
      destruct (fst res) as [status|e].
      * destruct Hout as (Hm & Hresp & Hall). split; [lia|]. split; [done|].
        intros H500. rewrite (Hall H500). done.
      * destruct Hout as (-> & _ & Hlast). split; [done|].
        split; [done|]. intros _. by apply Hlast.
Qed.

Lemma retryLoop_spec remaining i maxRetries retryDelay lastError n :
  Z.of_nat remaining = maxRetries - i →
  retrySpec remaining i retryDelay lastError n
    (retryLoop remaining i maxRetries retryDelay lastError n).
Proof.
  revert i lastError n.
  induction remaining as [|remaining' IH]; intros i lastError n Hrem.
  - simpl. split; [done|]. exists 0%nat. simpl.
    rewrite app_nil_r. repeat split; try done; try lia.
  - cbn [retryLoop]. unfold fetchWithTimeout.
    set (n1 := {| answers := answers n; requests := S (requests n);
                  slept := slept n |}).
    assert (Hstop : ∀ status,
      answers n (requests n) = Responds status →
      (500 ≤ status → remaining' = 0%nat) →
      retrySpec (S remaining') i retryDelay lastError n (Resolved status, n1)).
    { intros status Ha Hlast. split; [done|]. exists 1%nat. simpl.
      rewrite app_nil_r, Nat.add_1_r.
      split; [done|]. split; [lia|]. split; [done|]. split; [done|].
      split; [intros k Hk; lia|].
      replace (S (requests n) - 1)%nat with (requests n) by lia.
      split; [done|]. split; [done|].
      intros H500. by rewrite (Hlast H500). }
    assert (Hagain : ∀ lastError',
      retriable (answers n (requests n)) →
      remaining' ≠ 0%nat →
      retrySpec (S remaining') i retryDelay lastError n
        (retryLoop remaining' (i + 1) maxRetries retryDelay lastError'
           (sleep (retryDelay * (i + 1)) n1))).
    { intros lastError' Hre Hne.
      apply (retrySpec_retry _ _ _ _ lastError'); [done|done|].
      apply IH. lia. }
    assert (Hfail : ∀ e,
      errorOf (answers n (requests n)) = Some e →
      retrySpec (S remaining') i retryDelay lastError n
        (retryLoop remaining' (i + 1) maxRetries retryDelay (Some e)
           (if i <? maxRetries - 1 then sleep (retryDelay * (i + 1)) n1
            else n1))).
    { intros e He.
      destruct (Z.ltb_spec i (maxRetries - 1)) as [Hlt|Hge].
      - apply Hagain; [|lia].
        by destruct (answers n (requests n)).
      - assert (remaining' = 0%nat) as -> by lia. simpl.
        split; [done|]. exists 1%nat. simpl.
        rewrite app_nil_r, Nat.add_1_r.
        split; [done|]. split; [lia|]. split; [done|]. split; [done|].
        split; [intros k Hk; lia|].
        replace (S (requests n) - 1)%nat with (requests n) by lia.
        split; [done|]. split; [done|]. intros _. done. }
    destruct (answers n (requests n)) as [status| |message] eqn:Ha.
    + destruct ((400 <=? status) && (status <? 500)) eqn:H4.
      * apply Hstop; [done|].
        apply andb_true_iff in H4 as [_ H4]. apply Z.ltb_lt in H4. lia.
      * destruct ((500 <=? status) && (i <? maxRetries - 1)) eqn:H5.
        -- apply andb_true_iff in H5 as [H5 Hi].
           apply Z.leb_le in H5. apply Z.ltb_lt in Hi.
           apply Hagain; [done|lia].
        -- apply Hstop; [done|]. intros H500.
           apply andb_false_iff in H5 as [H5|Hi].
           ++ apply Z.leb_gt in H5. lia.
           ++ apply Z.ltb_ge in Hi. lia.
    + by apply Hfail.
    + by apply Hfail.
Qed.

Lemma fetchWithRetry_spec maxRetries retryDelay n :
  0 ≤ maxRetries →
  retrySpec (Z.to_nat maxRetries) 0 retryDelay None n
    (fetchWithRetry maxRetries retryDelay n).
Proof. intros Hm. apply retryLoop_spec. lia. Qed.

(** X19.  [fetchWithRetry] sends at most [maxRetries] requests, at least
    one when [maxRetries] is positive, and before its k-th retry waits
    [retryDelay * k]: the delays grow linearly. *)
Theorem fetchWithRetry_attempts_and_backoff maxRetries retryDelay n :
  let n' := snd (fetchWithRetry maxRetries retryDelay n) in
  answers n' = answers n ∧
  ∃ made : nat,
    requests n' = (requests n + made)%nat ∧
    (made ≤ Z.to_nat maxRetries)%nat ∧
    (0 < maxRetries → (1 ≤ made)%nat) ∧
    slept n' = slept n ++ backoff retryDelay 0 (made - 1) ∧
    (∀ j, (j < made - 1)%nat →
       backoff retryDelay 0 (made - 1) !! j
       = Some (retryDelay * Z.of_nat (S j))).
Proof.
  cbv zeta. destruct (Z.le_gt_cases 0 maxRetries) as [Hm|Hm].
  - destruct (fetchWithRetry_spec maxRetries retryDelay n Hm)
      as (Hans & made & Hreq & Hle & Hge & Hslept & _).
    split; [done|]. exists made. split; [done|]. split; [done|].
    split; [intros; apply Hge; lia|]. split; [done|].
    intros j Hj. unfold backoff. rewrite list_lookup_fmap.
    rewrite lookup_seq_lt by done. simpl. f_equal; lia.
  - unfold fetchWithRetry. replace (Z.to_nat maxRetries) with 0%nat by lia.
    simpl. split; [done|]. exists 0%nat. simpl. rewrite app_nil_r.
    repeat split; try done; try lia.
Qed.

(** X20.  [fetchWithRetry] rejects with its own 'Request failed after
    retries' error exactly when [maxRetries] is not positive, and then it
    sends no request. *)
Theorem fetchWithRetry_fallback_error_iff_no_attempt maxRetries retryDelay n :
  (maxRetries ≤ 0 →
     fetchWithRetry maxRetries retryDelay n = (Rejected RetriesExhausted, n))
  ∧ (fst (fetchWithRetry maxRetries retryDelay n) = Rejected RetriesExhausted →
       maxRetries ≤ 0).
Proof.
  split.
  - intros Hm. unfold fetchWithRetry.
    by replace (Z.to_nat maxRetries) with 0%nat by lia.
  - intros Hrej. destruct (Z.le_gt_cases maxRetries 0) as [|Hm]; [done|].
    exfalso.
    destruct (fetchWithRetry_spec maxRetries retryDelay n ltac:(lia))
      as (_ & made & _ & _ & _ & _ & _ & Hout).
    rewrite Hrej in Hout. destruct Hout as (_ & _ & Hlast).
    specialize (Hlast ltac:(lia)).
    by destruct (answers n _).
Qed.

(** X21.  With a positive [maxRetries], [fetchWithRetry] rejects only
    after [maxRetries] requests, with the rejection of the last one (a
    timeout as the 408 error); a status it resolves with is the answer to
    the last request sent, and a status of 500 or more is returned only
    from the last allowed attempt. *)
Theorem fetchWithRetry_gives_up_only_after_all_attempts maxRetries retryDelay n :
  0 < maxRetries →
  let res := fetchWithRetry maxRetries retryDelay n in
  let last := (requests (snd res) - 1)%nat in
  (requests n < requests (snd res))%nat
  ∧ (∀ e, fst res = Rejected e →
       requests (snd res) = (requests n + Z.to_nat maxRetries)%nat
       ∧ errorOf (answers n last) = Some e)
  ∧ (∀ status, fst res = Resolved status →
       answers n last = Responds status
       ∧ (500 ≤ status →
            requests (snd res) = (requests n + Z.to_nat maxRetries)%nat)).
Proof.
  intros Hm. cbv zeta.
  destruct (fetchWithRetry_spec maxRetries retryDelay n ltac:(lia))
    as (_ & made & Hreq & _ & Hge & _ & _ & Hout).
  specialize (Hge ltac:(lia)). rewrite Hreq.
  split; [lia|]. split.
  - intros e He. rewrite He in Hout. destruct Hout as (-> & _ & Hlast).
    split; [done|]. apply Hlast. lia.
  - intros status Hst. rewrite Hst in Hout. destruct Hout as (_ & Hlast & Hall).
    split; [done|]. intros H500. by rewrite (Hall H500).
Qed.

(** X22.  [fetchWithRetry] resolves with the first answer whose status is
    below 500, when it comes within the allowed attempts and every earlier
    request failed, timed out or was answered 500 or more; no further
    request is sent. *)
Theorem fetchWithRetry_returns_first_answer_below_500
    maxRetries retryDelay n k status :
  (k < Z.to_nat maxRetries)%nat →
  answers n (requests n + k)%nat = Responds status →
  status < 500 →
  (∀ j, (j < k)%nat → retriable (answers n (requests n + j)%nat)) →
  let res := fetchWithRetry maxRetries retryDelay n in
  fst res = Resolved status
  ∧ requests (snd res) = (requests n + S k)%nat
  ∧ slept (snd res) = slept n ++ backoff retryDelay 0 k.
Proof.
  intros Hk Ha Hlow Hprior. cbv zeta.
  destruct (fetchWithRetry_spec maxRetries retryDelay n ltac:(lia))
    as (_ & made & Hreq & Hle & Hge & Hslept & Hretried & Hout).
  specialize (Hge ltac:(lia)).
  assert (Hmade : made = S k).
  { destruct (lt_eq_lt_dec made (S k)) as [[Hlt|Heq]|Hgt]; [|done|].
    - (* stopped earlier: at an answer that was to be retried *)
      exfalso. specialize (Hprior (made - 1)%nat ltac:(lia)).
      replace (requests n + (made - 1))%nat
        with (requests n + made - 1)%nat in Hprior by lia.
      destruct (fst (fetchWithRetry maxRetries retryDelay n)) as [st|e].
      + destruct Hout as (_ & Hlast & Hall). rewrite Hlast in Hprior.
        simpl in Hprior. rewrite (Hall Hprior) in Hlt. lia.
      + destruct Hout as (-> & _). lia.
    - (* went past the answer below 500 *)
      exfalso. specialize (Hretried k ltac:(lia)).
      rewrite Ha in Hretried. simpl in Hretried. lia. }
  subst made. rewrite Hreq, Hslept.
  replace (S k - 1)%nat with k by lia.
  split; [|done].
  replace (requests n + S k - 1)%nat with (requests n + k)%nat in Hout by lia.
  destruct (fst (fetchWithRetry maxRetries retryDelay n)) as [st|e].
  - destruct Hout as (_ & Hlast & _). congruence.
  - destruct Hout as (_ & _ & Hlast). rewrite Ha in Hlast.
    by specialize (Hlast ltac:(lia)).
Qed.

(** ** The properties beyond the claims at work *)

Lemma demo_w1_wf : rowsWellFormed (store Demo.w1).
Proof. apply (reachable_consistent Demo.w1 demo_w1_reachable). Defined.

Lemma sweep_never_raises_witness :
  fst (handleExpiredReservations 121001 (withFaults [false; true] Demo.w1))
  = Return tt.
Proof. exact (sweep_never_raises 121001 (withFaults [false; true] Demo.w1)). Defined.

Lemma sweep_leaves_nothing_overdue_witness :
  faults Demo.w1 = [] ∧
  rowsWellFormed (store Demo.w1) ∧
  findExpiredPending 121001
    (reservations (store (snd (handleExpiredReservations 121001 Demo.w1)))) = [].
Proof.
  split; [reflexivity|]. split; [exact demo_w1_wf|].
  exact (proj1 (sweep_leaves_nothing_overdue 121001 Demo.w1 eq_refl demo_w1_wf)).
Defined.

Lemma sweep_touches_only_overdue_active_witness :
  rowsWellFormed (store Demo.w1) ∧
  reservations (store Demo.w1) !! "r1" = Some Demo.r1 ∧
  reservations (store (snd (handleExpiredReservations 121000 Demo.w1))) !! "r1"
  = Some Demo.r1.
Proof.
  assert (Hr : reservations (store Demo.w1) !! "r1" = Some Demo.r1)
    by (vm_compute; reflexivity).
  split; [exact demo_w1_wf|]. split; [exact Hr|].
  apply (proj2 (sweep_touches_only_overdue_active 121000 Demo.w1 "r1" Demo.r1
                  demo_w1_wf Hr)).
  right. vm_compute. discriminate.
Defined.

Lemma sweep_stops_at_first_failure_witness :
  faults (withFaults [false; true] Demo.w1) = [false; true] ∧
  store (snd (handleExpiredReservations 121001
                (withFaults [false; true] Demo.w1)))
  = store Demo.w1.
Proof.
  split; [reflexivity|].
  exact (proj2 (sweep_stops_at_first_failure 121001
                  (withFaults [false; true] Demo.w1) [] eq_refl)).
Defined.

Lemma reserve_and_expire_conserve_units_witness :
  rowsWellFormed (store Demo.w1) ∧
  sameCommitment (store Demo.w1) (store (snd (expireReservation "r1" Demo.w1))).
Proof.
  split; [exact demo_w1_wf|].
  destruct (reserve_and_expire_conserve_units Demo.w1 demo_w1_wf)
    as (_ & Hexpire & _).
  exact (Hexpire "r1" eq_refl).
Defined.

Lemma complete_unknown_id_witness :
  faults Demo.w1 = [] ∧
  reservations (store Demo.w1) !! "r9" = None ∧
  complete "r9" 2000 Demo.w1 = (Throw ReservationNotFound, Demo.w1).
Proof.
  assert (Hnone : reservations (store Demo.w1) !! "r9" = None)
    by (vm_compute; reflexivity).
  split; [reflexivity|]. split; [exact Hnone|].
  exact (complete_unknown_id "r9" 2000 Demo.w1 eq_refl Hnone).
Defined.

Lemma complete_within_hold_witness :
  faults Demo.w1 = [] ∧
  reservations (store Demo.w1) !! id Demo.r1 = Some Demo.r1 ∧
  status Demo.r1 = ACTIVE ∧
  5000 ≤ expiresAt Demo.r1 ∧
  fst (complete "r1" 5000 Demo.w1) = Return (withStatus COMPLETED Demo.r1).
Proof.
  assert (Hr : reservations (store Demo.w1) !! id Demo.r1 = Some Demo.r1)
    by (vm_compute; reflexivity).
  assert (Hnow : 5000 ≤ expiresAt Demo.r1) by (vm_compute; discriminate).
  split; [reflexivity|]. split; [exact Hr|]. split; [reflexivity|].
  split; [exact Hnow|].
  exact (proj1 (complete_within_hold Demo.r1 5000 Demo.w1 eq_refl Hr eq_refl Hnow)).
Defined.

Lemma reserve_then_expiry_job_restores_stock_witness :
  faults Demo.w0 = [] ∧
  reservations (store Demo.w0) !! "r1" = None ∧
  products (store Demo.w0) !! dto_productId Demo.order = Some Demo.phone ∧
  1 ≤ dto_quantity Demo.order ≤ availableStock Demo.phone ∧
  products (store (snd (handleExpiration
                          {| reservationId := "r1"; delay := 120000 |}
                          Demo.w1)))
  = products (store Demo.w0).
Proof.
  assert (Hp : products (store Demo.w0) !! dto_productId Demo.order
               = Some Demo.phone) by (vm_compute; reflexivity).
  assert (Hrange : 1 ≤ dto_quantity Demo.order ≤ availableStock Demo.phone)
    by (split; vm_compute; discriminate).
  split; [reflexivity|]. split; [reflexivity|]. split; [exact Hp|].
  split; [exact Hrange|].
  destruct (reserve_then_expiry_job_restores_stock Demo.order 1000 "r1"
              Demo.w0 Demo.phone eq_refl eq_refl Hp Hrange)
    as (_ & _ & Hstock & _).
  exact Hstock.
Defined.

Lemma queue_failure_is_swallowed_and_sweep_expires_witness :
  let w := withFaults [false; false; false; false; false; false; true] Demo.w0 in
  faults w = [false; false; false; false; false; false; true] ∧
  rowsWellFormed (store w) ∧
  reservations (store w) !! "r1" = None ∧
  products (store w) !! dto_productId Demo.order = Some Demo.phone ∧
  1 ≤ dto_quantity Demo.order ≤ availableStock Demo.phone ∧
  jobs (snd (create Demo.order 1000 "r1" w)) = [] ∧
  status <$>
    reservations (store (snd (handleExpiredReservations 200000
                                (snd (create Demo.order 1000 "r1" w))))) !! "r1"
  = Some EXPIRED.
Proof.
  cbv zeta.
  set (w := withFaults [false; false; false; false; false; false; true] Demo.w0).
  assert (Hwf : rowsWellFormed (store w)) by apply map_Forall_empty.
  assert (Hp : products (store w) !! dto_productId Demo.order
               = Some Demo.phone) by (vm_compute; reflexivity).
  assert (Hrange : 1 ≤ dto_quantity Demo.order ≤ availableStock Demo.phone)
    by (split; vm_compute; discriminate).
  split; [reflexivity|]. split; [exact Hwf|]. split; [reflexivity|].
  split; [exact Hp|]. split; [exact Hrange|].
  destruct (queue_failure_is_swallowed_and_sweep_expires Demo.order 1000 "r1"
              w Demo.phone 200000 eq_refl Hwf eq_refl Hp Hrange)
    as (r & Hres & Hjobs & _ & _ & _ & Hlate & _).
  split; [exact Hjobs|].
  assert (Hr : r = Demo.r1).
  { assert (H : Return r = Return Demo.r1)
      by (rewrite <- Hres; vm_compute; reflexivity).
    by injection H. }
  destruct Hlate as (r' & Hrow & Hst & _).
  { rewrite Hr. vm_compute. reflexivity. }
  rewrite Hrow. simpl. by rewrite Hst.
Defined.

Lemma decrement_then_increment_stock_witness :
  faults Demo.w0 = [] ∧
  (decrementStock "p1" 4 >> incrementStock "p1" 4) Demo.w0 = (Return tt, Demo.w0).
Proof.
  split; [reflexivity|].
  exact (proj1 (decrement_then_increment_stock "p1" 4 Demo.w0 eq_refl)).
Defined.

Lemma getStatistics_counts_every_reservation_once_witness :
  store (snd (getStatistics (withFaults [false; true] Demo.w1)))
  = store Demo.w1.
Proof.
  exact (proj1 (getStatistics_counts_every_reservation_once
                  (withFaults [false; true] Demo.w1))).
Defined.

Lemma getStatistics_follows_lifecycle_witness :
  faults Demo.w1 = [] ∧
  fst (getStatistics (snd (expireReservation "r1" Demo.w1)))
  = Return {| active := 0; completed := 0; expired := 1 |}.
Proof.
  split; [reflexivity|].
  destruct (getStatistics_follows_lifecycle Demo.w1 eq_refl)
    as (_ & _ & _ & Hexpire).
  assert (Hr : reservations (store Demo.w1) !! id Demo.r1 = Some Demo.r1)
    by (vm_compute; reflexivity).
  pose proof (Hexpire Demo.r1 Hr eq_refl) as H.
  change (id Demo.r1) with "r1" in H. rewrite H. vm_compute. reflexivity.
Defined.

Lemma seedProducts_seeds_once_witness :
  let w := {| store := {| products := ∅; reservations := ∅ |};
              txn := None; jobs := []; faults := []; clock := Demo.utc |} in
  let uuids := ["p1"; "p2"; "p3"; "p4"; "p5"; "p6"] in
  faults w = [] ∧
  initialStore (store (snd (seedProducts uuids w))) ∧
  seedProducts uuids (snd (seedProducts uuids w))
  = (Return tt, snd (seedProducts uuids w)).
Proof.
  cbv zeta. split; [reflexivity|].
  destruct (seedProducts_seeds_once ["p1"; "p2"; "p3"; "p4"; "p5"; "p6"]
              {| store := {| products := ∅; reservations := ∅ |};
                 txn := None; jobs := []; faults := [];
                 clock := Demo.utc |} eq_refl)
    as (_ & Hempty).
  destruct (Hempty eq_refl) as (_ & _ & _ & _ & Hinit & Hagain).
  split; [exact (Hinit eq_refl)|].
  apply Hagain. discriminate.
Defined.

Lemma getRemainingTime_never_overstates_witness :
  getRemainingTime 3500 Demo.r1 = 117
  ∧ 1000 * getRemainingTime 3500 Demo.r1 ≤ Z.max 0 (expiresAt Demo.r1 - 3500).
Proof.
  split; [reflexivity|].
  exact (proj1 (proj2 (getRemainingTime_never_overstates 3500 Demo.r1))).
Defined.

Lemma fresh_reservation_counts_down_from_120_witness :
  localOffsetOfLocal Demo.utc (LocalTime Demo.utc 1000 + 120000)
  = localOffset Demo.utc 1000 ∧
  expiresAt Demo.r1 = 1000 + 120000 ∧
  getRemainingTime 1000 Demo.r1 = 120.
Proof.
  assert (Hsame : localOffsetOfLocal Demo.utc (LocalTime Demo.utc 1000 + 120000)
                  = localOffset Demo.utc 1000) by reflexivity.
  split; [exact Hsame|].
  destruct (fresh_reservation_counts_down_from_120 Demo.utc Demo.order 1000 "r1")
    as (_ & Hstable).
  destruct (Hstable Hsame) as (Hdeadline & Hstart & _).
  split; [exact Hdeadline|exact Hstart].
Defined.

Lemma countdown_zero_while_still_confirmable_witness :
  faults Demo.w1 = [] ∧
  reservations (store Demo.w1) !! id Demo.r1 = Some Demo.r1 ∧
  status Demo.r1 = ACTIVE ∧
  expiresAt Demo.r1 - 1000 < 120500 ≤ expiresAt Demo.r1 ∧
  calculateTimeLeft 120500 Demo.r1 = 0 ∧
  fst (complete "r1" 120500 Demo.w1) = Return (withStatus COMPLETED Demo.r1).
Proof.
  assert (Hr : reservations (store Demo.w1) !! id Demo.r1 = Some Demo.r1)
    by (vm_compute; reflexivity).
  assert (Hnow : expiresAt Demo.r1 - 1000 < 120500 ≤ expiresAt Demo.r1)
    by (split; vm_compute; [reflexivity|discriminate]).
  split; [reflexivity|]. split; [exact Hr|]. split; [reflexivity|].
  split; [exact Hnow|].
  destruct (countdown_zero_while_still_confirmable Demo.r1 120500 Demo.w1
              eq_refl Hr eq_refl Hnow) as (Hzero & Hok & _).
  split; [exact Hzero|exact Hok].
Defined.

Lemma stock_status_agrees_with_filters_witness :
  0 ≤ availableStock Demo.phone ∧
  (passesFilter ShowLowStock Demo.phone = true
   ↔ getStockStatus Demo.phone = "low-stock").
Proof.
  assert (H0 : 0 ≤ availableStock Demo.phone) by (vm_compute; discriminate).
  split; [exact H0|].
  destruct (stock_status_agrees_with_filters Demo.phone) as (_ & Hnonneg & _).
  exact (proj2 (Hnonneg H0)).
Defined.

Lemma card_and_service_accept_the_same_requests_witness :
  faults Demo.w0 = [] ∧
  products (store Demo.w0) !! "p1" = Some Demo.phone ∧
  (handleReserveError 3 Demo.phone = None ↔ 1 ≤ 3 ≤ availableStock Demo.phone) ∧
  (∃ e, fst (create {| dto_productId := "p1"; dto_quantity := 11 |}
               1000 "r1" Demo.w0) = Throw e
        ∧ store (snd (create {| dto_productId := "p1"; dto_quantity := 11 |}
                        1000 "r1" Demo.w0)) = store Demo.w0
        ∧ (11 < 1 → e = InvalidQuantity)
        ∧ (1 ≤ 11 → e = DriverError)).
Proof.
  assert (Hp : products (store Demo.w0) !! "p1" = Some Demo.phone)
    by (vm_compute; reflexivity).
  split; [reflexivity|]. split; [exact Hp|]. split.
  - exact (proj1 (card_and_service_accept_the_same_requests "p1" 3 1000 "r1"
                    Demo.w0 Demo.phone eq_refl Hp)).
  - destruct (card_and_service_accept_the_same_requests "p1" 11 1000 "r1"
                Demo.w0 Demo.phone eq_refl Hp) as (_ & _ & Hrefused).
    apply Hrefused. vm_compute. discriminate.
Defined.

Lemma fetchWithRetry_attempts_and_backoff_witness :
  answers (snd (fetchWithRetry 3 1000 DemoClient.flaky))
  = answers DemoClient.flaky
  ∧ slept (snd (fetchWithRetry 3 1000 DemoClient.flaky)) = [1000; 2000].
Proof.
  split; [|reflexivity].
  exact (proj1 (fetchWithRetry_attempts_and_backoff 3 1000 DemoClient.flaky)).
Defined.

Lemma fetchWithRetry_fallback_error_iff_no_attempt_witness :
  0 ≤ 0 ∧
  fetchWithRetry 0 1000 DemoClient.flaky
  = (Rejected RetriesExhausted, DemoClient.flaky).
Proof.
  split; [lia|].
  apply (proj1 (fetchWithRetry_fallback_error_iff_no_attempt 0 1000
                  DemoClient.flaky)).
  lia.
Defined.

Lemma fetchWithRetry_gives_up_only_after_all_attempts_witness :
  0 < 3 ∧
  fst (fetchWithRetry 3 1000 DemoClient.silent)
  = Rejected (ApiRequestError "Request timeout" 408 "Request Timeout") ∧
  requests (snd (fetchWithRetry 3 1000 DemoClient.silent)) = 3%nat.
Proof.
  assert (Hm : 0 < 3) by lia.
  assert (Hrej : fst (fetchWithRetry 3 1000 DemoClient.silent)
    = Rejected (ApiRequestError "Request timeout" 408 "Request Timeout"))
    by reflexivity.
  split; [exact Hm|]. split; [exact Hrej|].
  destruct (fetchWithRetry_gives_up_only_after_all_attempts 3 1000
              DemoClient.silent Hm) as (_ & Hgive & _).
  exact (proj1 (Hgive _ Hrej)).
Defined.

Lemma fetchWithRetry_returns_first_answer_below_500_witness :
  (2 < Z.to_nat 3)%nat ∧
  answers DemoClient.flaky (requests DemoClient.flaky + 2)%nat = Responds 200 ∧
  200 < 500 ∧
  fst (fetchWithRetry 3 1000 DemoClient.flaky) = Resolved 200 ∧
  slept (snd (fetchWithRetry 3 1000 DemoClient.flaky)) = [1000; 2000].
Proof.
  assert (Hk : (2 < Z.to_nat 3)%nat) by (vm_compute; lia).
  assert (Ha : answers DemoClient.flaky (requests DemoClient.flaky + 2)%nat
               = Responds 200) by reflexivity.
  assert (Hlow : 200 < 500) by lia.
  split; [exact Hk|]. split; [exact Ha|]. split; [exact Hlow|].
  destruct (fetchWithRetry_returns_first_answer_below_500 3 1000
              DemoClient.flaky 2 200 Hk Ha Hlow) as (Hres & _ & Hslept).
  - intros [|[|j]] Hj; simpl; [done|lia|lia].
  - split; [exact Hres|exact Hslept].
Defined.
